(** * The interactive web background of [script.js]

    A shallow embedding of the animation engine of [src/script.js]: the grid
    generator ([resize], [initPoints], [idx]), the physics tick ([update]),
    the renderer ([draw]), the pointer and scroll handlers and the frame
    scheduler ([animate]).

    Numbers.  A JavaScript number is modelled by a real number ([R]) where the
    program computes coordinates, velocities and opacities, so rounding is
    idealised; lattice coordinates, counters and millisecond time stamps are
    integers ([Z]).  [Math.random] is the host's generator: the stream of the
    values it returns is a parameter of the development, and the number of
    values consumed so far is threaded through the code that draws from it. *)

From Stdlib Require Import Reals ZArith List Bool FinFun Lia Lra Psatz.
From Stdlib Require String.
Import ListNotations.
Import String.StringSyntax.
Delimit Scope string_scope with string.

Open Scope R_scope.

(** ** Data *)

(** The object pushed by [initPoints]. *)
Record Point : Type := mkPoint {
  x : R; y : R;
  ox : R; oy : R;
  vx : R; vy : R;
  col : Z; row : Z
}.

(** [const mouse = { x: null, y: null }]: [None] is [null]. *)
Record Mouse : Type := mkMouse {
  mouse_x : option R;
  mouse_y : option R
}.

(** The calls the renderer makes on the 2d context, reduced to what is painted:
    the clear, the dot of a point, the stroke of an edge with the opacity given
    in its [strokeStyle], and the halo around the pointer. *)
Inductive CanvasOp : Type :=
| clearRect (w h : R)
| fillDot (cx cy : R)
| strokeLine (x1 y1 x2 y2 opacity : R)
| fillHalo (cx cy : R).

(** What one run of a handler asks of the host. *)
Inductive HostCall : Type :=
| Paint (ops : list CanvasOp)
| requestAnimationFrame.

(** The variables of the closure, and [drawn]: how many values [Math.random]
    has returned so far. *)
Record State : Type := mkState {
  width : R;
  height : R;
  points : list Point;
  cols : Z;
  rows : Z;
  mouse : Mouse;
  lastScrollTime : Z;
  frameCount : Z;
  drawn : nat
}.

(** ** Constants and primitives *)

Definition spacing : R := 100.
Definition maxDist : R := 180.

(** [Math.ceil]: [up r] is the integer with [r < up r <= r + 1]. *)
Definition Math_ceil (r : R) : Z := (1 - up (- r))%Z.

(** [null] in an arithmetic position is [0]. *)
Definition toNumber (v : option R) : R :=
  match v with
  | Some r => r
  | None => 0
  end.

(** [a || 1] on numbers: [0] is the falsy one. *)
Definition or_one (a : R) : R :=
  if Req_dec_T a 0 then 1 else a.

(** [points[n]]: [undefined] ([None]) outside the array. *)
Definition at_index (ps : list Point) (n : Z) : option Point :=
  if (n <? 0)%Z then None else nth_error ps (Z.to_nat n).

(** The values of [i] in [for (let i = 0; i < n; i++)]. *)
Definition range (n : Z) : list Z :=
  map Z.of_nat (seq 0 (Z.to_nat n)).

(** ** Code that draws random numbers *)

Definition Rand (A : Type) : Type := nat -> A * nat.

Definition ret {A : Type} (a : A) : Rand A := fun n => (a, n).

Definition bind {A B : Type} (m : Rand A) (f : A -> Rand B) : Rand B :=
  fun n => let (a, n') := m n in f a n'.

Notation "v <- m ;; k" := (bind m (fun v => k))
  (at level 61, m at next level, right associativity).

(** A loop whose body draws: the results in the order of the iterations. *)
Fixpoint forM {A B : Type} (l : list A) (f : A -> Rand B) : Rand (list B) :=
  match l with
  | [] => ret []
  | a :: l' => b <- f a ;; bs <- forM l' f ;; ret (b :: bs)
  end.

Section Engine.

(** The [n]-th value returned by [Math.random] since the page was loaded. *)
Variable Math_random : nat -> R.

Definition random : Rand R := fun n => (Math_random n, S n).

(** ** Grid generator *)

(** The body of the inner loop of [initPoints]: the four calls of
    [Math.random] in the order of evaluation (x, y, vx, vy). *)
Definition newPoint (i j : Z) : Rand Point :=
  let stagger := if (Z.rem j 2 =? 0)%Z then 0 else spacing / 2 in
  r1 <- random ;;
  let px := IZR i * spacing + stagger + (r1 * 12 - 6) in
  r2 <- random ;;
  let py := IZR j * spacing + (r2 * 12 - 6) in
  r3 <- random ;;
  r4 <- random ;;
  ret {| x := px; y := py; ox := px; oy := py;
         vx := (r3 - 0.5) * 0.04; vy := (r4 - 0.5) * 0.04;
         col := i; row := j |}.

(** [initPoints]: the pushes of the two nested loops, column by column. *)
Definition initPoints (cols rows : Z) : Rand (list Point) :=
  columns <- forM (range cols) (fun i => forM (range rows) (fun j => newPoint i j)) ;;
  ret (concat columns).

Definition resize (innerWidth innerHeight : R) (st : State) : State :=
  let cols' := (Math_ceil (innerWidth / spacing) + 1)%Z in
  let rows' := (Math_ceil (innerHeight / spacing) + 1)%Z in
  let (ps, n) := initPoints cols' rows' (drawn st) in
  {| width := innerWidth; height := innerHeight; points := ps;
     cols := cols'; rows := rows'; mouse := mouse st;
     lastScrollTime := lastScrollTime st; frameCount := frameCount st;
     drawn := n |}.

Definition idx (rows i j : Z) : Z := (i * rows + j)%Z.

(** ** Interaction tracker *)

Definition onMove (clientX clientY rectLeft rectTop : R) (st : State) : State :=
  {| width := width st; height := height st; points := points st;
     cols := cols st; rows := rows st;
     mouse := {| mouse_x := Some (clientX - rectLeft);
                 mouse_y := Some (clientY - rectTop) |};
     lastScrollTime := lastScrollTime st; frameCount := frameCount st;
     drawn := drawn st |}.

Definition onLeave (st : State) : State :=
  {| width := width st; height := height st; points := points st;
     cols := cols st; rows := rows st;
     mouse := {| mouse_x := None; mouse_y := None |};
     lastScrollTime := lastScrollTime st; frameCount := frameCount st;
     drawn := drawn st |}.

(** The scroll listener; [now] is what [Date.now()] returns. *)
Definition onScroll (now : Z) (st : State) : State :=
  {| width := width st; height := height st; points := points st;
     cols := cols st; rows := rows st; mouse := mouse st;
     lastScrollTime := now; frameCount := frameCount st;
     drawn := drawn st |}.

(** ** Physics updater *)

(** The body of the loop of [update] on one point. *)
Definition update_point (m : Mouse) (p : Point) : Rand Point :=
  let x1 := x p + vx p in
  let y1 := y p + vy p in
  let vx1 := vx p + (ox p - x1) * 0.00012 in
  let vy1 := vy p + (oy p - y1) * 0.00012 in
  r1 <- random ;;
  let vx2 := vx1 + (r1 - 0.5) * 0.00008 in
  r2 <- random ;;
  let vy2 := vy1 + (r2 - 0.5) * 0.00008 in
  match mouse_x m with
  | None =>
      ret {| x := x1; y := y1; ox := ox p; oy := oy p;
             vx := vx2; vy := vy2; col := col p; row := row p |}
  | Some mx =>
      let dx := x1 - mx in
      let dy := y1 - toNumber (mouse_y m) in
      let dist := or_one (sqrt (dx * dx + dy * dy)) in
      if Rlt_dec dist maxDist then
        let force := (maxDist - dist) / maxDist * 0.6 in
        ret {| x := x1 + (dx / dist) * force * 0.9;
               y := y1 + (dy / dist) * force * 0.9;
               ox := ox p; oy := oy p;
               vx := vx2; vy := vy2; col := col p; row := row p |}
      else
        ret {| x := x1; y := y1; ox := ox p; oy := oy p;
               vx := vx2; vy := vy2; col := col p; row := row p |}
  end.

(** [update]: the points are mutated in place, in the order of the array. *)
Definition update (st : State) : State :=
  let (ps, n) := forM (points st) (update_point (mouse st)) (drawn st) in
  {| width := width st; height := height st; points := ps;
     cols := cols st; rows := rows st; mouse := mouse st;
     lastScrollTime := lastScrollTime st; frameCount := frameCount st;
     drawn := n |}.

(** ** Renderer *)

(** The array [neighbors] built for the point at column [i], row [j]. *)
Definition neighbors (cols rows i j : Z) : list Z :=
  (if (i + 1 <? cols)%Z then [idx rows (i + 1) j] else []) ++
  (if (j + 1 <? rows)%Z then [idx rows i (j + 1)] else []) ++
  (if ((i + 1 <? cols) && (j + 1 <? rows))%Z
   then [idx rows (i + 1) (j + 1)] else []) ++
  (if ((i + 1 <? cols) && (j - 1 >=? 0))%Z
   then [idx rows (i + 1) (j - 1)] else []).

(** The body of [for (const n of neighbors)]. *)
Definition draw_edge (ps : list Point) (p : Point) (n : Z) : list CanvasOp :=
  match at_index ps n with
  | None => []
  | Some q =>
      let dx := x p - x q in
      let dy := y p - y q in
      let dist := sqrt (dx * dx + dy * dy) in
      if Rlt_dec dist maxDist then
        let alpha := 1 - dist / maxDist in
        [strokeLine (x p) (y p) (x q) (y q) (alpha * 0.32)]
      else []
  end.

(** The body of the loop over [k]. *)
Definition draw_point (st : State) (p : Point) : list CanvasOp :=
  fillDot (x p) (y p) ::
  flat_map (draw_edge (points st) p)
           (neighbors (cols st) (rows st) (col p) (row p)).

Definition draw (st : State) : list CanvasOp :=
  clearRect (width st) (height st) ::
  flat_map (draw_point st) (points st) ++
  match mouse_x (mouse st) with
  | None => []
  | Some mx => [fillHalo mx (toNumber (mouse_y (mouse st)))]
  end.

(** ** Frame scheduler *)

(** One run of [animate]; [now] is what [Date.now()] returns. *)
Definition animate (now : Z) (st : State) : State * list HostCall :=
  let st1 :=
    {| width := width st; height := height st; points := points st;
       cols := cols st; rows := rows st; mouse := mouse st;
       lastScrollTime := lastScrollTime st;
       frameCount := (frameCount st + 1)%Z;
       drawn := drawn st |} in
  let scrolling := (now - lastScrollTime st1 <? 160)%Z in
  let skip := if scrolling then 3%Z else 0%Z in
  if (Z.rem (frameCount st1) (skip + 1) =? 0)%Z then
    let st2 := update st1 in
    (st2, [Paint (draw st2); requestAnimationFrame])
  else
    (st1, [requestAnimationFrame]).

(** The state before [resize()] and [animate()] are first called. *)
Definition initial : State :=
  {| width := 0; height := 0; points := []; cols := 0; rows := 0;
     mouse := {| mouse_x := None; mouse_y := None |};
     lastScrollTime := 0; frameCount := 0; drawn := 0 |}.

(** The last two statements of the engine: [resize(); animate();]. *)
Definition start (innerWidth innerHeight : R) (now : Z) : State * list HostCall :=
  animate now (resize innerWidth innerHeight initial).

End Engine.

(** ** The listeners *)

(** What the page delivers to the listeners the engine registers: [resize]
    with the inner size of the window at that moment, [mousemove] with the
    client coordinates and the origin of the bounding rectangle of the canvas,
    [mouseout] and [mouseleave] (both run [onLeave]), [scroll] and the
    animation frame, each with what [Date.now()] returns. *)
Inductive Event : Type :=
| Resize (innerWidth innerHeight : R)
| MouseMove (clientX clientY rectLeft rectTop : R)
| MouseLeave
| Scroll (now : Z)
| Frame (now : Z).

Definition handle (Math_random : nat -> R) (e : Event) (st : State) : State :=
  match e with
  | Resize w h => resize Math_random w h st
  | MouseMove cx cy l t => onMove cx cy l t st
  | MouseLeave => onLeave st
  | Scroll now => onScroll now st
  | Frame now => fst (animate Math_random now st)
  end.

Fixpoint run (Math_random : nat -> R) (es : list Event) (st : State) : State :=
  match es with
  | [] => st
  | e :: es' => run Math_random es' (handle Math_random e st)
  end.

(** ** The mobile menu *)

(** What the two click listeners read and write: the class list of the menu,
    the [aria-expanded] attribute of the toggle and the [aria-hidden]
    attribute of the drawer ([None]: the attribute is not set). *)
Record MenuDom : Type := mkMenuDom {
  classList : list String.string;
  aria_expanded : option String.string;
  aria_hidden : option String.string
}.

Definition classList_contains (token : String.string) (l : list String.string)
  : bool :=
  existsb (String.eqb token) l.

Definition classList_remove (token : String.string) (l : list String.string)
  : list String.string :=
  filter (fun c => negb (String.eqb token c)) l.

(** [classList.toggle(token)]: the token is removed when present and appended
    when absent; the result tells whether it is present afterwards. *)
Definition classList_toggle (token : String.string) (l : list String.string)
  : bool * list String.string :=
  if classList_contains token l
  then (false, classList_remove token l)
  else (true, l ++ [token]).

(** The click listener of the toggle. *)
Definition toggle_click (d : MenuDom) : MenuDom :=
  let (open, classes) := classList_toggle "open"%string (classList d) in
  {| classList := classes;
     aria_expanded := Some (if open then "true" else "false")%string;
     aria_hidden := Some (if open then "false" else "true")%string |}.

(** The click listener of every link of the drawer. *)
Definition link_click (d : MenuDom) : MenuDom :=
  {| classList := classList_remove "open"%string (classList d);
     aria_expanded := Some "false"%string;
     aria_hidden := Some "true"%string |}.

Inductive MenuEvent : Type :=
| ToggleClick
| LinkClick.

Definition menu_handle (e : MenuEvent) (d : MenuDom) : MenuDom :=
  match e with
  | ToggleClick => toggle_click d
  | LinkClick => link_click d
  end.

Fixpoint menu_run (es : list MenuEvent) (d : MenuDom) : MenuDom :=
  match es with
  | [] => d
  | e :: es' => menu_run es' (menu_handle e d)
  end.

(** What the script finds on the page when it runs: the canvas
    [#interactive-bg] (without it the script returns at once, before the
    menu), and the elements [.mobile-menu], [.mobile-toggle] and
    [.mobile-drawer] (the click listeners are registered only if all three
    are found).  As everywhere in this development the canvas, when found,
    gives a 2d context. *)
Record Page : Type := mkPage {
  canvas_found : bool;
  menu_found : bool;
  toggle_found : bool;
  drawer_found : bool
}.

Definition menu_listeners (pg : Page) : bool :=
  canvas_found pg && (menu_found pg && toggle_found pg && drawer_found pg).

(** A click on the toggle or on a link of the drawer of a page: the listener
    runs if it has been registered. *)
Definition click (pg : Page) (e : MenuEvent) (d : MenuDom) : MenuDom :=
  if menu_listeners pg then menu_handle e d else d.

Fixpoint clicks (pg : Page) (es : list MenuEvent) (d : MenuDom) : MenuDom :=
  match es with
  | [] => d
  | e :: es' => clicks pg es' (click pg e d)
  end.

(** * Vocabulary of the properties *)

(** The lattice coordinates of a point, and the pairs of a [cols] by [rows]
    lattice in the order [initPoints] visits them. *)
Definition coords (p : Point) : Z * Z := (col p, row p).

Definition lattice (cols rows : Z) : list (Z * Z) :=
  flat_map (fun i => map (pair i) (range rows)) (range cols).

(** A generator that always returns one half: every jitter of the tick is
    then [(0.5 - 0.5) * 0.00008 = 0]. *)
Definition still : nat -> R := fun _ => 1 / 2.

(** The four steps of a tick, each as a function of its own, as the design
    lists them: integration, restoring force, jitter, pointer repulsion. *)
Definition integrate (p : Point) : Point :=
  {| x := x p + vx p; y := y p + vy p; ox := ox p; oy := oy p;
     vx := vx p; vy := vy p; col := col p; row := row p |}.

Definition restore (p : Point) : Point :=
  {| x := x p; y := y p; ox := ox p; oy := oy p;
     vx := vx p + (ox p - x p) * 0.00012;
     vy := vy p + (oy p - y p) * 0.00012;
     col := col p; row := row p |}.

Definition jitter (r1 r2 : R) (p : Point) : Point :=
  {| x := x p; y := y p; ox := ox p; oy := oy p;
     vx := vx p + (r1 - 0.5) * 0.00008;
     vy := vy p + (r2 - 0.5) * 0.00008;
     col := col p; row := row p |}.

(** The distance from the pointer to a point, with [0] replaced by [1], and
    the force at that distance. *)
Definition reach (m : Mouse) (p : Point) : R :=
  let dx := x p - toNumber (mouse_x m) in
  let dy := y p - toNumber (mouse_y m) in
  or_one (sqrt (dx * dx + dy * dy)).

Definition push (d : R) : R := (maxDist - d) / maxDist * 0.6.

Definition repel (m : Mouse) (p : Point) : Point :=
  match mouse_x m with
  | None => p
  | Some mx =>
      if Rlt_dec (reach m p) maxDist then
        {| x := x p + (x p - mx) / reach m p * push (reach m p) * 0.9;
           y := y p + (y p - toNumber (mouse_y m)) / reach m p
                      * push (reach m p) * 0.9;
           ox := ox p; oy := oy p; vx := vx p; vy := vy p;
           col := col p; row := row p |}
      else p
  end.

(** What the repulsion alone adds to the position of a point in one tick:
    the position after [update_point] minus the integrated position. *)
Definition repulsion (Math_random : nat -> R) (m : Mouse) (p : Point) (n : nat)
  : R * R :=
  let p' := fst (update_point Math_random m p n) in
  (x p' - (x p + vx p), y p' - (y p + vy p)).

Definition magnitude (v : R * R) : R :=
  sqrt (fst v * fst v + snd v * snd v).

(** What a tick leaves alone. *)
Definition same_identity (p p' : Point) : Prop :=
  ox p' = ox p /\ oy p' = oy p /\ col p' = col p /\ row p' = row p.

(** The distance of a point from its rest position, as the design measures
    it, and the two quadratic forms (one per axis) that a tick without jitter
    and without pointer keeps. *)
Definition displacement (p : Point) : R :=
  Rabs (x p - ox p) + Rabs (y p - oy p).

Definition stiffness : R := 0.00012.

Definition energy_x (p : Point) : R :=
  vx p * vx p + stiffness * (x p - ox p) * vx p
  + stiffness * (x p - ox p) * (x p - ox p).

Definition energy_y (p : Point) : R :=
  vy p * vy p + stiffness * (y p - oy p) * vy p
  + stiffness * (y p - oy p) * (y p - oy p).

(** What a tick keeps when nothing disturbs the point. *)
Definition undisturbed (p p' : Point) : Prop :=
  same_identity p p' /\ energy_x p' = energy_x p /\ energy_y p' = energy_y p.

(** [k] ticks in a row. *)
Fixpoint ticks (Math_random : nat -> R) (k : nat) (st : State) : State :=
  match k with
  | O => st
  | S k' => ticks Math_random k' (update Math_random st)
  end.

(** A generator that always returns zero: every jitter of the tick is then
    [(0 - 0.5) * 0.00008 = -0.00004]. *)
Definition lowest : nat -> R := fun _ => 0.

(** A point at its rest position that moves to the right: the point that
    [initPoints] leaves at column 0, row 0 when its four draws are 0.75, 0.25,
    0.75 and 0.5.  With it, the grid of a viewport of 0 by 0 right after
    [resize], the pointer absent. *)
Definition drifting_point : Point :=
  {| x := 3; y := -3; ox := 3; oy := -3;
     vx := 0.01; vy := 0; col := 0; row := 0 |}.

Definition drifting : State :=
  {| width := 0; height := 0; points := [drifting_point]; cols := 1; rows := 1;
     mouse := {| mouse_x := None; mouse_y := None |};
     lastScrollTime := 0; frameCount := 0; drawn := 4 |}.

(** A point that does not move, and the pointer exactly on it. *)
Definition resting_point : Point :=
  {| x := 150; y := 300; ox := 150; oy := 300;
     vx := 0; vy := 0; col := 1; row := 3 |}.

Definition pointer_on_it : Mouse :=
  {| mouse_x := Some 150; mouse_y := Some 300 |}.

(** The first statement of [animate]: the frame is counted. *)
Definition count_frame (st : State) : State :=
  {| width := width st; height := height st; points := points st;
     cols := cols st; rows := rows st; mouse := mouse st;
     lastScrollTime := lastScrollTime st;
     frameCount := (frameCount st + 1)%Z;
     drawn := drawn st |}.

(** Whether the calls of one run of [animate] include a painted frame, and
    whether they include the request for the next run. *)
Definition performs_work (calls : list HostCall) : bool :=
  existsb (fun c => match c with Paint _ => true | _ => false end) calls.

Definition rerequested (calls : list HostCall) : bool :=
  existsb (fun c => match c with requestAnimationFrame => true | _ => false end)
          calls.

(** The runs of [animate] at the given times, one after the other: the state
    each leaves and the calls it makes. *)
Fixpoint frames (Math_random : nat -> R) (times : list Z) (st : State)
  : list (State * list HostCall) :=
  match times with
  | [] => []
  | now :: later =>
      let r := animate Math_random now st in
      r :: frames Math_random later (fst r)
  end.

(** The page at some time of day [1700000000000], on an 800 by 600 viewport,
    right after the engine has started. *)
Definition started : State :=
  fst (start still 800 600 1700000000000).

(** The Euclidean distance between the current positions of two points. *)
Definition distance (p q : Point) : R :=
  sqrt ((x p - x q) * (x p - x q) + (y p - y q) * (y p - y q)).

(** Two neighbours of the lattice exactly [maxDist] apart, and two at the
    same place. *)
Definition left_end : Point :=
  {| x := 0; y := 0; ox := 0; oy := 0; vx := 0; vy := 0; col := 0; row := 0 |}.

Definition right_end : Point :=
  {| x := 180; y := 0; ox := 100; oy := 0; vx := 0; vy := 0; col := 1; row := 0 |}.

(** The points with their indices, and the pairs [(k, n)] for which the
    renderer runs the body of its inner loop: [k] the index of a point and
    [n] a member of the array [neighbors] built for it. *)
Fixpoint indexed_from (k : Z) (ps : list Point) : list (Z * Point) :=
  match ps with
  | [] => []
  | p :: ps' => (k, p) :: indexed_from (k + 1) ps'
  end.

Definition indexed (ps : list Point) : list (Z * Point) := indexed_from 0 ps.

Definition candidate_edges (cols rows : Z) (ps : list Point) : list (Z * Z) :=
  flat_map
    (fun kp => map (pair (fst kp))
                 (neighbors cols rows (col (snd kp)) (row (snd kp))))
    (indexed ps).

(** The four places the renderer looks at from column [i], row [j] (right,
    bottom, bottom-right, top-right), and whether a place is on the lattice. *)
Definition four (i j : Z) : list (Z * Z) :=
  [(i + 1, j); (i, j + 1); (i + 1, j + 1); (i + 1, j - 1)]%Z.

Definition in_grid (cols rows : Z) (c : Z * Z) : bool :=
  ((0 <=? fst c) && (fst c <? cols) && (0 <=? snd c) && (snd c <? rows))%Z.

(** What the inner loop paints for a pair [(k, n)]. *)
Definition edge_ops (ps : list Point) (e : Z * Z) : list CanvasOp :=
  match at_index ps (fst e) with
  | Some p => draw_edge ps p (snd e)
  | None => []
  end.

Definition is_stroke (op : CanvasOp) : bool :=
  match op with
  | strokeLine _ _ _ _ _ => true
  | _ => false
  end.

(** The points are those of a [cols] by [rows] lattice, in the order of
    [initPoints]. *)
Definition grid_shaped (st : State) : Prop :=
  map coords (points st) = lattice (cols st) (rows st).

(** The grid of a viewport of 100 by 100, two columns and two rows, at rest:
    the page after its first frame when every draw is one half. *)
Definition tiny : State :=
  {| width := 100; height := 100;
     points :=
       [ {| x := 0; y := 0; ox := 0; oy := 0; vx := 0; vy := 0; col := 0; row := 0 |};
         {| x := 50; y := 100; ox := 50; oy := 100; vx := 0; vy := 0; col := 0; row := 1 |};
         {| x := 100; y := 0; ox := 100; oy := 0; vx := 0; vy := 0; col := 1; row := 0 |};
         {| x := 150; y := 100; ox := 150; oy := 100; vx := 0; vy := 0; col := 1; row := 1 |} ];
     cols := 2; rows := 2;
     mouse := {| mouse_x := None; mouse_y := None |};
     lastScrollTime := 0; frameCount := 1; drawn := 24 |}.

(** The kinds of canvas operations. *)
Definition is_clear (op : CanvasOp) : bool :=
  match op with
  | clearRect _ _ => true
  | _ => false
  end.

Definition is_dot (op : CanvasOp) : bool :=
  match op with
  | fillDot _ _ => true
  | _ => false
  end.

Definition is_halo (op : CanvasOp) : bool :=
  match op with
  | fillHalo _ _ => true
  | _ => false
  end.

(** A point that sits where the lattice puts it when the jitter is zero. *)
Definition at_lattice (p : Point) : Prop :=
  x p = IZR (col p) * spacing + (if Z.odd (row p) then spacing / 2 else 0) /\
  y p = IZR (row p) * spacing.

(** Events that are not of the pointer, and the frames among events. *)
Definition pointer_event (e : Event) : bool :=
  match e with
  | MouseMove _ _ _ _ => true
  | MouseLeave => true
  | _ => false
  end.

Definition is_frame (e : Event) : bool :=
  match e with
  | Frame _ => true
  | _ => false
  end.

(** Whether the menu is open after the clicks, given whether it was. *)
Fixpoint open_after (es : list MenuEvent) (b : bool) : bool :=
  match es with
  | [] => b
  | ToggleClick :: es' => open_after es' (negb b)
  | LinkClick :: es' => open_after es' false
  end.

(** The attributes agree with the class list. *)
Definition menu_consistent (d : MenuDom) : Prop :=
  aria_expanded d =
    Some (if classList_contains "open"%string (classList d)
          then "true" else "false")%string /\
  aria_hidden d =
    Some (if classList_contains "open"%string (classList d)
          then "false" else "true")%string.

(** A menu as the page may ship it: closed, with a class of its own, and no
    attribute set yet. *)
Definition shipped_menu : MenuDom :=
  {| classList := ["mobile-menu"%string];
     aria_expanded := None; aria_hidden := None |}.

(** The first point of [tiny] and its right neighbour. *)
Definition origin_point : Point :=
  {| x := 0; y := 0; ox := 0; oy := 0; vx := 0; vy := 0; col := 0; row := 0 |}.

Definition right_of_origin : Point :=
  {| x := 100; y := 0; ox := 100; oy := 0; vx := 0; vy := 0; col := 1; row := 0 |}.

(** The last point of [tiny]: the bottom-right neighbour of the first. *)
Definition below_right_of_origin : Point :=
  {| x := 150; y := 100; ox := 150; oy := 100; vx := 0; vy := 0;
     col := 1; row := 1 |}.

(** A page that has the canvas and the three elements of the menu. *)
Definition whole_page : Page :=
  {| canvas_found := true; menu_found := true;
     toggle_found := true; drawer_found := true |}.

(** * Properties *)

(** ** Integers and reals *)

Lemma Math_ceil_bounds (r : R) :
  IZR (Math_ceil r) - 1 < r <= IZR (Math_ceil r).
Proof.
  unfold Math_ceil. rewrite minus_IZR.
  destruct (archimed (- r)) as [Hgt Hle]. lra.
Qed.

Lemma Math_ceil_unique (r : R) (z : Z) :
  IZR z - 1 < r <= IZR z -> Math_ceil r = z.
Proof.
  intros [Hlo Hhi].
  destruct (Math_ceil_bounds r) as [Clo Chi].
  assert (H1 : IZR (z - 1) < IZR (Math_ceil r)) by (rewrite minus_IZR; lra).
  assert (H2 : IZR (Math_ceil r - 1) < IZR z) by (rewrite minus_IZR; lra).
  apply lt_IZR in H1. apply lt_IZR in H2. lia.
Qed.

Lemma Math_ceil_nonneg (r : R) : 0 <= r -> (0 <= Math_ceil r)%Z.
Proof.
  intros Hr. destruct (Math_ceil_bounds r) as [_ Chi].
  apply le_IZR. lra.
Qed.

Lemma or_one_nonzero (a : R) : or_one a <> 0.
Proof.
  unfold or_one. destruct (Req_dec_T a 0); [lra | assumption].
Qed.

Lemma or_one_sqrt_pos (a : R) : 0 < or_one (sqrt a).
Proof.
  unfold or_one. destruct (Req_dec_T (sqrt a) 0) as [E | N]; [lra |].
  pose proof (sqrt_pos a). lra.
Qed.

(** ** Loops *)

Lemma range_length (n : Z) : length (range n) = Z.to_nat n.
Proof. unfold range. now rewrite length_map, length_seq. Qed.

Lemma range_nth (n : Z) (k : nat) :
  (k < Z.to_nat n)%nat -> nth_error (range n) k = Some (Z.of_nat k).
Proof.
  intros Hk. unfold range.
  rewrite nth_error_map, nth_error_seq.
  destruct (Nat.ltb_spec k (Z.to_nat n)); [reflexivity | lia].
Qed.

Lemma range_In (n z : Z) : In z (range n) <-> (0 <= z < n)%Z.
Proof.
  unfold range. rewrite in_map_iff. split.
  - intros [k [<- Hk]]. apply in_seq in Hk. lia.
  - intros Hz. exists (Z.to_nat z). split; [lia |]. apply in_seq. lia.
Qed.

Lemma range_NoDup (n : Z) : NoDup (range n).
Proof.
  unfold range. apply Injective_map_NoDup.
  - intros a b. apply Nat2Z.inj.
  - apply seq_NoDup.
Qed.

Section Loops.

Context {A B : Type}.
Variable f : A -> Rand B.

Lemma forM_cons (a : A) (l : list A) (n : nat) :
  forM (a :: l) f n =
  (fst (f a n) :: fst (forM l f (snd (f a n))), snd (forM l f (snd (f a n)))).
Proof.
  simpl. unfold bind, ret.
  destruct (f a n) as [b n1]. simpl.
  destruct (forM l f n1) as [bs n2]. reflexivity.
Qed.

Lemma forM_length (l : list A) (n : nat) :
  length (fst (forM l f n)) = length l.
Proof.
  revert n. induction l as [| a l IH]; intros n.
  - reflexivity.
  - rewrite forM_cons. simpl. now rewrite IH.
Qed.

(** A property of each result that no draw can break holds of all of them. *)
Lemma forM_Forall2 (P : A -> B -> Prop) :
  (forall a n, P a (fst (f a n))) ->
  forall l n, Forall2 P l (fst (forM l f n)).
Proof.
  intros HP l. induction l as [| a l IH]; intros n.
  - constructor.
  - rewrite forM_cons. simpl. constructor; [apply HP | apply IH].
Qed.

Lemma forM_map {C : Type} (g : B -> C) (h : A -> C) :
  (forall a n, g (fst (f a n)) = h a) ->
  forall l n, map g (fst (forM l f n)) = map h l.
Proof.
  intros Hg l. induction l as [| a l IH]; intros n.
  - reflexivity.
  - rewrite forM_cons. simpl. now rewrite Hg, IH.
Qed.

(** When every iteration draws [c] numbers. *)
Variable c : nat.
Hypothesis f_draws : forall a n, snd (f a n) = (n + c)%nat.

Lemma forM_drawn (l : list A) (n : nat) :
  snd (forM l f n) = (n + c * length l)%nat.
Proof.
  revert n. induction l as [| a l IH]; intros n.
  - simpl. lia.
  - rewrite forM_cons. simpl snd. rewrite IH, f_draws. simpl length. lia.
Qed.

Lemma forM_nth (l : list A) (n k : nat) (a : A) :
  nth_error l k = Some a ->
  nth_error (fst (forM l f n)) k = Some (fst (f a (n + c * k)%nat)).
Proof.
  revert n k. induction l as [| a0 l IH]; intros n k Hk.
  - destruct k; discriminate.
  - rewrite forM_cons. destruct k as [| k].
    + simpl in Hk. injection Hk as ->. simpl. do 3 f_equal. lia.
    + simpl in Hk. simpl nth_error. rewrite (IH _ _ Hk), f_draws.
      do 3 f_equal. lia.
Qed.

End Loops.

Lemma concat_nth {T : Type} (m : nat) (ll : list (list T)) (i j : nat) (l : list T) :
  Forall (fun l' => length l' = m) ll ->
  nth_error ll i = Some l -> (j < m)%nat ->
  nth_error (concat ll) (i * m + j) = nth_error l j.
Proof.
  intros Hall. revert i. induction Hall as [| l0 ll Hl0 Hall IH]; intros i Hi Hj.
  - destruct i; discriminate.
  - destruct i as [| i]; simpl in Hi.
    + injection Hi as ->. simpl. apply nth_error_app1. lia.
    + simpl concat. rewrite nth_error_app2 by (simpl; nia).
      replace (S i * m + j - length l0)%nat with (i * m + j)%nat by (simpl; lia).
      now apply IH.
Qed.

Lemma concat_length_uniform {T : Type} (m : nat) (ll : list (list T)) :
  Forall (fun l' => length l' = m) ll ->
  length (concat ll) = (length ll * m)%nat.
Proof.
  induction 1 as [| l0 ll Hl0 Hall IH]; simpl.
  - reflexivity.
  - rewrite length_app, IH, Hl0. lia.
Qed.

(** ** Grid generator *)

Section Grid.

Variable Math_random : nat -> R.

Lemma newPoint_eq (i j : Z) (n : nat) :
  newPoint Math_random i j n =
  (let stagger := if (Z.rem j 2 =? 0)%Z then 0 else spacing / 2 in
   let px := IZR i * spacing + stagger + (Math_random n * 12 - 6) in
   let py := IZR j * spacing + (Math_random (n + 1) * 12 - 6) in
   {| x := px; y := py; ox := px; oy := py;
      vx := (Math_random (n + 2) - 0.5) * 0.04;
      vy := (Math_random (n + 3) - 0.5) * 0.04;
      col := i; row := j |},
   (n + 4)%nat).
Proof.
  unfold newPoint, bind, random, ret. cbv zeta.
  replace (S n) with (n + 1)%nat by lia.
  replace (S (n + 1)) with (n + 2)%nat by lia.
  replace (S (n + 2)) with (n + 3)%nat by lia.
  replace (S (n + 3)) with (n + 4)%nat by lia.
  reflexivity.
Qed.

Lemma newPoint_drawn (i j : Z) (n : nat) :
  snd (newPoint Math_random i j n) = (n + 4)%nat.
Proof. now rewrite newPoint_eq. Qed.

Lemma newPoint_coords (i j : Z) (n : nat) :
  coords (fst (newPoint Math_random i j n)) = (i, j).
Proof. now rewrite newPoint_eq. Qed.

(** One column of the grid: the inner loop of [initPoints]. *)
Lemma column_length (rows i : Z) (n : nat) :
  length (fst (forM (range rows) (fun j => newPoint Math_random i j) n)) =
  Z.to_nat rows.
Proof. now rewrite forM_length, range_length. Qed.

Lemma column_drawn (rows i : Z) (n : nat) :
  snd (forM (range rows) (fun j => newPoint Math_random i j) n) =
  (n + 4 * Z.to_nat rows)%nat.
Proof.
  rewrite (forM_drawn _ 4%nat) by (intros; apply newPoint_drawn).
  now rewrite range_length.
Qed.

Lemma initPoints_eq (cols rows : Z) (n : nat) :
  initPoints Math_random cols rows n =
  (concat (fst (forM (range cols)
                 (fun i => forM (range rows) (fun j => newPoint Math_random i j)) n)),
   (n + 4 * Z.to_nat rows * Z.to_nat cols)%nat).
Proof.
  unfold initPoints, bind, ret.
  pose proof (forM_drawn (fun i => forM (range rows) (fun j => newPoint Math_random i j))
                (4 * Z.to_nat rows)%nat
                (fun i m => column_drawn rows i m) (range cols) n) as Hd.
  rewrite range_length in Hd.
  destruct (forM (range cols) _ n) as [columns n']. simpl in *. now subst.
Qed.

Lemma initPoints_coords (cols rows : Z) (n : nat) :
  map coords (fst (initPoints Math_random cols rows n)) = lattice cols rows.
Proof.
  rewrite initPoints_eq. simpl fst. rewrite concat_map.
  unfold lattice. rewrite flat_map_concat_map. f_equal.
  apply forM_map. intros i m.
  apply forM_map. intros j k. apply newPoint_coords.
Qed.

Lemma initPoints_columns (cols rows : Z) (n : nat) :
  Forall (fun l => length l = Z.to_nat rows)
    (fst (forM (range cols)
            (fun i => forM (range rows) (fun j => newPoint Math_random i j)) n)).
Proof.
  apply Forall_forall. intros l Hl.
  pose proof (forM_Forall2
                (fun i => forM (range rows) (fun j => newPoint Math_random i j))
                (fun _ l => length l = Z.to_nat rows)
                (fun i m => column_length rows i m) (range cols) n) as HF.
  induction HF as [| i l0 li ls Hl0 HF IH].
  - destruct Hl.
  - destruct Hl as [<- | Hl]; [assumption | now apply IH].
Qed.

Lemma initPoints_length (cols rows : Z) (n : nat) :
  length (fst (initPoints Math_random cols rows n)) =
  (Z.to_nat cols * Z.to_nat rows)%nat.
Proof.
  rewrite initPoints_eq. simpl fst.
  rewrite (concat_length_uniform (Z.to_nat rows)) by apply initPoints_columns.
  now rewrite forM_length, range_length.
Qed.

(** The point pushed for column [i] and row [j] sits at [idx(i, j)], and its
    four random numbers are those drawn from position [4 * idx(i, j)] on. *)
Lemma initPoints_at (cols rows i j : Z) (n : nat) :
  (0 <= i < cols)%Z -> (0 <= j < rows)%Z ->
  at_index (fst (initPoints Math_random cols rows n)) (idx rows i j) =
  Some (fst (newPoint Math_random i j (n + 4 * Z.to_nat (idx rows i j))%nat)).
Proof.
  intros Hi Hj. unfold at_index, idx.
  destruct (Z.ltb_spec (i * rows + j) 0) as [Hneg | _]; [nia |].
  rewrite initPoints_eq. simpl fst.
  replace (Z.to_nat (i * rows + j))
    with (Z.to_nat i * Z.to_nat rows + Z.to_nat j)%nat
    by (rewrite Z2Nat.inj_add, Z2Nat.inj_mul; solve [reflexivity | lia | nia]).
  rewrite (concat_nth (Z.to_nat rows) _ _ _
             (fst (forM (range rows) (fun j0 => newPoint Math_random i j0)
                     (n + 4 * Z.to_nat rows * Z.to_nat i)%nat))).
  - rewrite (forM_nth _ 4%nat (fun j0 m => newPoint_drawn i j0 m) _ _ _ j).
    + replace (n + 4 * Z.to_nat rows * Z.to_nat i + 4 * Z.to_nat j)%nat
        with (n + 4 * (Z.to_nat i * Z.to_nat rows + Z.to_nat j))%nat by lia.
      reflexivity.
    + rewrite range_nth by lia. f_equal. lia.
  - apply initPoints_columns.
  - rewrite (forM_nth _ (4 * Z.to_nat rows)%nat
               (fun i0 m => column_drawn rows i0 m) _ _ _ i).
    + reflexivity.
    + rewrite range_nth by lia. f_equal. lia.
  - lia.
Qed.

End Grid.

(** The lattice itself. *)

Lemma lattice_In (cols rows i j : Z) :
  In (i, j) (lattice cols rows) <-> (0 <= i < cols)%Z /\ (0 <= j < rows)%Z.
Proof.
  unfold lattice. rewrite in_flat_map. split.
  - intros [i0 [Hi0 Hin]]. apply in_map_iff in Hin.
    destruct Hin as [j0 [Heq Hj0]]. injection Heq as -> ->.
    now rewrite <- !range_In.
  - intros [Hi Hj]. exists i. split; [now apply range_In |].
    apply in_map. now apply range_In.
Qed.

Lemma lattice_NoDup (cols rows : Z) : NoDup (lattice cols rows).
Proof.
  unfold lattice. generalize (range_NoDup cols).
  induction (range cols) as [| i l IH]; intros Hnd; simpl.
  - constructor.
  - inversion Hnd as [| ? ? Hni Hnd']; subst.
    apply NoDup_app.
    + apply Injective_map_NoDup; [| apply range_NoDup].
      intros a b Hab. now injection Hab.
    + now apply IH.
    + intros [a b] Hin1 Hin2. apply in_map_iff in Hin1.
      destruct Hin1 as [j0 [Heq _]]. injection Heq as <- <-.
      apply in_flat_map in Hin2. destruct Hin2 as [i0 [Hi0 Hin2]].
      apply in_map_iff in Hin2. destruct Hin2 as [j1 [Heq _]].
      injection Heq as -> _. contradiction.
Qed.

Lemma resize_fields (Math_random : nat -> R) (w h : R) (st : State) :
  cols (resize Math_random w h st) = (Math_ceil (w / spacing) + 1)%Z /\
  rows (resize Math_random w h st) = (Math_ceil (h / spacing) + 1)%Z /\
  points (resize Math_random w h st) =
    fst (initPoints Math_random (Math_ceil (w / spacing) + 1)
           (Math_ceil (h / spacing) + 1) (drawn st)) /\
  frameCount (resize Math_random w h st) = frameCount st /\
  lastScrollTime (resize Math_random w h st) = lastScrollTime st /\
  mouse (resize Math_random w h st) = mouse st.
Proof.
  unfold resize.
  destruct (initPoints Math_random _ _ (drawn st)) as [ps n]. simpl. tauto.
Qed.

Lemma Math_ceil_spacing (w : R) :
  (IZR (Math_ceil (w / spacing) + 1) - 2) * spacing < w
    <= (IZR (Math_ceil (w / spacing) + 1) - 1) * spacing.
Proof.
  rewrite plus_IZR. destruct (Math_ceil_bounds (w / spacing)) as [Hlo Hhi].
  unfold spacing in *.
  replace w with (w / 100 * 100) at 2 3 by field. lra.
Qed.

(** C1.  Building the grid for a viewport of [w] by [h] sets
    [cols = ceil(w / spacing) + 1] and [rows = ceil(h / spacing) + 1] (the
    least integers with [(cols - 1) * spacing >= w] and
    [(rows - 1) * spacing >= h]), leaves exactly [cols * rows] points, whose
    [(col, row)] pairs are pairwise distinct and within
    [0 <= col < cols], [0 <= row < rows]; a viewport of 800 by 600 gives 9
    columns, 7 rows and 63 points. *)
Theorem resize_builds_grid (Math_random : nat -> R) (w h : R) (st : State) :
  0 <= w -> 0 <= h ->
  let st' := resize Math_random w h st in
  let st800 := resize Math_random 800 600 st in
  cols st' = (Math_ceil (w / spacing) + 1)%Z /\
  rows st' = (Math_ceil (h / spacing) + 1)%Z /\
  (IZR (cols st') - 2) * spacing < w <= (IZR (cols st') - 1) * spacing /\
  (IZR (rows st') - 2) * spacing < h <= (IZR (rows st') - 1) * spacing /\
  Z.of_nat (length (points st')) = (cols st' * rows st')%Z /\
  NoDup (map coords (points st')) /\
  (forall p, In p (points st') ->
     (0 <= col p < cols st')%Z /\ (0 <= row p < rows st')%Z) /\
  cols st800 = 9%Z /\ rows st800 = 7%Z /\ length (points st800) = 63%nat.
Proof.
  intros Hw Hh st' st800.
  destruct (resize_fields Math_random w h st) as (Hc & Hr & Hp & _).
  fold st' in Hc, Hr, Hp.
  assert (Hcn : (0 <= Math_ceil (w / spacing))%Z).
  { apply Math_ceil_nonneg. unfold spacing. apply Rmult_le_pos; lra. }
  assert (Hrn : (0 <= Math_ceil (h / spacing))%Z).
  { apply Math_ceil_nonneg. unfold spacing. apply Rmult_le_pos; lra. }
  assert (Hco : map coords (points st') = lattice (cols st') (rows st')).
  { rewrite Hp, Hc, Hr. apply initPoints_coords. }
  repeat split.
  - exact Hc.
  - exact Hr.
  - rewrite Hc. apply Math_ceil_spacing.
  - rewrite Hc. apply Math_ceil_spacing.
  - rewrite Hr. apply Math_ceil_spacing.
  - rewrite Hr. apply Math_ceil_spacing.
  - rewrite Hp, initPoints_length, Hc, Hr. lia.
  - rewrite Hco. apply lattice_NoDup.
  - assert (Hin : In (coords p) (lattice (cols st') (rows st'))).
    { rewrite <- Hco. now apply in_map. }
    apply lattice_In in Hin. apply Hin.
  - assert (Hin : In (coords p) (lattice (cols st') (rows st'))).
    { rewrite <- Hco. now apply in_map. }
    apply lattice_In in Hin. apply Hin.
  - assert (Hin : In (coords p) (lattice (cols st') (rows st'))).
    { rewrite <- Hco. now apply in_map. }
    apply lattice_In in Hin. apply Hin.
  - assert (Hin : In (coords p) (lattice (cols st') (rows st'))).
    { rewrite <- Hco. now apply in_map. }
    apply lattice_In in Hin. apply Hin.
  - destruct (resize_fields Math_random 800 600 st) as (Hc8 & _).
    fold st800 in Hc8. rewrite Hc8.
    rewrite (Math_ceil_unique (800 / spacing) 8); [reflexivity |].
    unfold spacing. lra.
  - destruct (resize_fields Math_random 800 600 st) as (_ & Hr8 & _).
    fold st800 in Hr8. rewrite Hr8.
    rewrite (Math_ceil_unique (600 / spacing) 6); [reflexivity |].
    unfold spacing. lra.
  - destruct (resize_fields Math_random 800 600 st) as (_ & _ & Hp8 & _).
    fold st800 in Hp8. rewrite Hp8, initPoints_length.
    rewrite (Math_ceil_unique (800 / spacing) 8) by (unfold spacing; lra).
    rewrite (Math_ceil_unique (600 / spacing) 6) by (unfold spacing; lra).
    reflexivity.
Qed.

Lemma resize_builds_grid_witness :
  0 <= 800 /\ 0 <= 600 /\
  cols (resize still 800 600 initial) = 9%Z /\
  rows (resize still 800 600 initial) = 7%Z /\
  length (points (resize still 800 600 initial)) = 63%nat.
Proof.
  assert (H8 : 0 <= 800) by lra.
  assert (H6 : 0 <= 600) by lra.
  split; [exact H8 |]. split; [exact H6 |].
  apply (resize_builds_grid still 800 600 initial H8 H6).
Defined.

Lemma rem2_even (j : Z) : (0 <= j)%Z -> (Z.rem j 2 =? 0)%Z = negb (Z.odd j).
Proof.
  intros Hj. rewrite Z.rem_mod_nonneg by lia. rewrite Zmod_odd.
  now destruct (Z.odd j).
Qed.

(** C9.  The point generated for the lattice index [(i, j)] is the one at
    [idx(i, j)]; it carries [col = i] and [row = j]; its position is
    [x = i * spacing + stagger + jx], [y = j * spacing + jy], where the
    stagger is [spacing / 2] on odd [j] and [0] otherwise and the jitters
    [jx = 12 r - 6], [jy = 12 r' - 6] come from two separate draws, so they lie
    in [-6, 6); [ox = x] and [oy = y]; and each velocity component is
    [(r'' - 0.5) * 0.04] for a further draw of its own, so it lies in
    [-0.02, 0.02). *)
Theorem initPoints_point (Math_random : nat -> R) (cols rows i j : Z) (n : nat) :
  (forall k, 0 <= Math_random k < 1) ->
  (0 <= i < cols)%Z -> (0 <= j < rows)%Z ->
  let k := (n + 4 * Z.to_nat (idx rows i j))%nat in
  let stagger := if Z.odd j then spacing / 2 else 0 in
  let jx := Math_random k * 12 - 6 in
  let jy := Math_random (k + 1)%nat * 12 - 6 in
  exists p,
    at_index (fst (initPoints Math_random cols rows n)) (idx rows i j) = Some p /\
    col p = i /\ row p = j /\
    x p = IZR i * spacing + stagger + jx /\
    y p = IZR j * spacing + jy /\
    -6 <= jx < 6 /\ -6 <= jy < 6 /\
    ox p = x p /\ oy p = y p /\
    Rabs (x p - ox p) <= 6 /\ Rabs (y p - oy p) <= 6 /\
    vx p = (Math_random (k + 2)%nat - 0.5) * 0.04 /\
    vy p = (Math_random (k + 3)%nat - 0.5) * 0.04 /\
    -0.02 <= vx p < 0.02 /\ -0.02 <= vy p < 0.02.
Proof.
  intros Hrange Hi Hj k stagger jx jy.
  exists (fst (newPoint Math_random i j k)). split.
  - now apply initPoints_at.
  - rewrite newPoint_eq. cbv zeta. simpl.
    rewrite rem2_even by lia.
    pose proof (Hrange k) as H0. pose proof (Hrange (k + 1)%nat) as H1.
    pose proof (Hrange (k + 2)%nat) as H2. pose proof (Hrange (k + 3)%nat) as H3.
    unfold stagger, jx, jy.
    repeat split; try reflexivity; try lra.
    + now destruct (Z.odd j).
    + rewrite Rminus_diag, Rabs_R0. lra.
    + rewrite Rminus_diag, Rabs_R0. lra.
Qed.

Lemma initPoints_point_witness :
  (forall k, 0 <= still k < 1) /\ (0 <= 1 < 9)%Z /\ (0 <= 3 < 7)%Z /\
  exists p,
    at_index (fst (initPoints still 9 7 0%nat)) (idx 7 1 3) = Some p /\
    col p = 1%Z /\ row p = 3%Z /\ x p = 150 /\ y p = 300.
Proof.
  assert (Hs : forall k, 0 <= still k < 1) by (intros k; unfold still; lra).
  assert (Hi : (0 <= 1 < 9)%Z) by lia.
  assert (Hj : (0 <= 3 < 7)%Z) by lia.
  split; [exact Hs |]. split; [exact Hi |]. split; [exact Hj |].
  destruct (initPoints_point still 9 7 1 3 0%nat Hs Hi Hj)
    as (p & Hat & Hc & Hr & Hx & Hy & _).
  exists p. repeat split; try assumption.
  - rewrite Hx. unfold still, spacing. simpl. lra.
  - rewrite Hy. unfold still, spacing. lra.
Defined.

(** ** Physics updater *)

Section Physics.

Variable Math_random : nat -> R.

Lemma update_point_eq (m : Mouse) (p : Point) (n : nat) :
  update_point Math_random m p n =
  (repel m (jitter (Math_random n) (Math_random (S n)) (restore (integrate p))),
   S (S n)).
Proof.
  unfold update_point, bind, random, ret, repel, reach. cbv zeta. simpl.
  destruct (mouse_x m) as [mx |]; simpl; [| reflexivity].
  destruct (Rlt_dec _ maxDist); reflexivity.
Qed.

Lemma update_point_drawn (m : Mouse) (p : Point) (n : nat) :
  snd (update_point Math_random m p n) = (n + 2)%nat.
Proof. rewrite update_point_eq. simpl. lia. Qed.

Lemma repel_same_identity (m : Mouse) (p : Point) :
  same_identity p (repel m p) /\ vx (repel m p) = vx p /\ vy (repel m p) = vy p.
Proof.
  unfold repel, same_identity.
  destruct (mouse_x m); [destruct (Rlt_dec _ _) |]; simpl; tauto.
Qed.

Lemma update_point_same_identity (m : Mouse) (p : Point) (n : nat) :
  same_identity p (fst (update_point Math_random m p n)).
Proof.
  rewrite update_point_eq. simpl fst.
  destruct (repel_same_identity m
              (jitter (Math_random n) (Math_random (S n)) (restore (integrate p))))
    as [(H1 & H2 & H3 & H4) _].
  unfold same_identity. rewrite H1, H2, H3, H4. simpl. tauto.
Qed.

Lemma update_fields (st : State) :
  points (update Math_random st) =
    fst (forM (points st) (update_point Math_random (mouse st)) (drawn st)) /\
  cols (update Math_random st) = cols st /\
  rows (update Math_random st) = rows st /\
  mouse (update Math_random st) = mouse st /\
  lastScrollTime (update Math_random st) = lastScrollTime st /\
  frameCount (update Math_random st) = frameCount st /\
  width (update Math_random st) = width st /\
  height (update Math_random st) = height st.
Proof.
  unfold update.
  destruct (forM (points st) _ (drawn st)) as [ps n]. simpl. tauto.
Qed.

Lemma update_points_Forall2 (P : Point -> Point -> Prop) (st : State) :
  (forall p n, P p (fst (update_point Math_random (mouse st) p n))) ->
  Forall2 P (points st) (points (update Math_random st)).
Proof.
  intros HP. destruct (update_fields st) as [-> _].
  now apply forM_Forall2.
Qed.

End Physics.

Lemma update_nth (Math_random : nat -> R) (st : State) (k : nat) (p : Point) :
  nth_error (points st) k = Some p ->
  nth_error (points (update Math_random st)) k =
  Some (repel (mouse st)
          (jitter (Math_random (drawn st + 2 * k)%nat)
                  (Math_random (S (drawn st + 2 * k)))
                  (restore (integrate p)))).
Proof.
  intros Hp. destruct (update_fields Math_random st) as [-> _].
  rewrite (forM_nth _ 2%nat
             (fun q n => update_point_drawn Math_random (mouse st) q n)
             _ _ _ p Hp).
  now rewrite update_point_eq.
Qed.

(** C2.  One tick, [update], replaces every point of the array, in place and
    in the order of the array, by the result of these steps in this order:
    the integration of the position, the restoring force computed from the
    integrated position, a jitter on each velocity component from a draw of
    its own (the point at index [k] takes the draws [2 k] and [2 k + 1] of
    the tick), lying in [-0.00004, 0.00004), and the pointer repulsion
    computed from the integrated position, which changes nothing when the
    pointer is absent. *)
Theorem update_point_order (Math_random : nat -> R) (st : State) (k : nat)
    (p : Point) :
  (forall i, 0 <= Math_random i < 1) ->
  nth_error (points st) k = Some p ->
  let m := mouse st in
  let n := (drawn st + 2 * k)%nat in
  let r1 := Math_random n in
  let r2 := Math_random (S n) in
  let p' := repel m (jitter r1 r2 (restore (integrate p))) in
  nth_error (points (update Math_random st)) k = Some p' /\
  length (points (update Math_random st)) = length (points st) /\
  (forall m0 q n0,
     update_point Math_random m0 q n0 =
     (repel m0 (jitter (Math_random n0) (Math_random (S n0))
                  (restore (integrate q))), S (S n0))) /\
  vx p' = vx p + (ox p - (x p + vx p)) * 0.00012 + (r1 - 0.5) * 0.00008 /\
  vy p' = vy p + (oy p - (y p + vy p)) * 0.00012 + (r2 - 0.5) * 0.00008 /\
  -0.00004 <= (r1 - 0.5) * 0.00008 < 0.00004 /\
  -0.00004 <= (r2 - 0.5) * 0.00008 < 0.00004 /\
  (mouse_x m = None -> x p' = x p + vx p /\ y p' = y p + vy p) /\
  (forall q, mouse_x m = None -> repel m q = q).
Proof.
  intros Hrange Hp m n r1 r2 p'.
  pose proof (Hrange n) as H1. pose proof (Hrange (S n)) as H2.
  fold r1 in H1. fold r2 in H2.
  destruct (repel_same_identity m (jitter r1 r2 (restore (integrate p))))
    as (_ & Hvx & Hvy).
  split; [now apply update_nth |].
  split.
  { destruct (update_fields Math_random st) as [-> _]. apply forM_length. }
  split; [intros m0 q n0; apply update_point_eq |].
  split; [unfold p'; rewrite Hvx; reflexivity |].
  split; [unfold p'; rewrite Hvy; reflexivity |].
  split; [lra |]. split; [lra |].
  split.
  - intros Hm. unfold p', repel. rewrite Hm. simpl. tauto.
  - intros q Hm. unfold repel. now rewrite Hm.
Qed.

Lemma update_point_order_witness :
  (forall i, 0 <= still i < 1) /\
  nth_error (points drifting) 0 = Some drifting_point /\
  nth_error (points (update still drifting)) 0 =
  Some (repel (mouse drifting)
          (jitter (still (drawn drifting + 2 * 0)%nat)
                  (still (S (drawn drifting + 2 * 0)))
                  (restore (integrate drifting_point)))).
Proof.
  assert (Hs : forall i, 0 <= still i < 1) by (intros i; unfold still; lra).
  assert (Hp : nth_error (points drifting) 0 = Some drifting_point)
    by reflexivity.
  split; [exact Hs |]. split; [exact Hp |].
  apply (update_point_order still drifting 0 drifting_point Hs Hp).
Defined.

(** C10.  A tick changes neither the number of points nor, for any point, its
    rest position [ox], [oy] or its lattice coordinates [col], [row]; the
    dimensions of the grid stay as they are. *)
Theorem update_frame (Math_random : nat -> R) (st : State) :
  length (points (update Math_random st)) = length (points st) /\
  Forall2 same_identity (points st) (points (update Math_random st)) /\
  cols (update Math_random st) = cols st /\
  rows (update Math_random st) = rows st.
Proof.
  split; [| split].
  - destruct (update_fields Math_random st) as [-> _]. apply forM_length.
  - apply update_points_Forall2. intros p n. apply update_point_same_identity.
  - destruct (update_fields Math_random st) as (_ & Hc & Hr & _). now split.
Qed.

(** ** Pointer repulsion *)

Lemma reach_pos (m : Mouse) (p : Point) : 0 < reach m p.
Proof. unfold reach. apply or_one_sqrt_pos. Qed.

Lemma push_range (d : R) : 0 < d -> d < maxDist -> 0 < push d < 0.6.
Proof.
  unfold push, maxDist. intros Hd Hlt.
  assert (H : 0 < (180 - d) / 180 < 1).
  { split.
    - apply Rdiv_lt_0_compat; lra.
    - apply (Rmult_lt_reg_r 180); [lra |]. field_simplify. lra. }
  nra.
Qed.

Lemma sum_squares_zero (a b : R) : sqrt (a * a + b * b) = 0 -> a = 0 /\ b = 0.
Proof.
  intros H. apply sqrt_eq_0 in H; [| nra]. split; nra.
Qed.

Lemma magnitude_zero : magnitude (0, 0) = 0.
Proof.
  unfold magnitude. simpl. rewrite Rmult_0_l, Rplus_0_l. apply sqrt_0.
Qed.

(** A vector along [(dx, dy) / |(dx, dy)|] scaled by [f >= 0] has length [f]. *)
Lemma magnitude_scaled (dx dy f : R) :
  sqrt (dx * dx + dy * dy) <> 0 -> 0 <= f ->
  magnitude (dx / sqrt (dx * dx + dy * dy) * f, dy / sqrt (dx * dx + dy * dy) * f) = f.
Proof.
  intros Hd Hf. unfold magnitude. simpl.
  set (d := sqrt (dx * dx + dy * dy)) in *.
  assert (Hdd : d * d = dx * dx + dy * dy) by (apply sqrt_sqrt; nra).
  replace (dx / d * f * (dx / d * f) + dy / d * f * (dy / d * f))
    with ((dx * dx + dy * dy) / (d * d) * (f * f)) by (field; exact Hd).
  rewrite <- Hdd.
  replace (d * d / (d * d) * (f * f)) with (f * f) by (field; exact Hd).
  now apply sqrt_square.
Qed.

Section Repulsion.

Variable Math_random : nat -> R.

(** The displacement in terms of the integrated point. *)
Lemma repulsion_eq (m : Mouse) (p : Point) (n : nat) :
  repulsion Math_random m p n =
  (x (repel m (integrate p)) - x (integrate p),
   y (repel m (integrate p)) - y (integrate p)).
Proof.
  unfold repulsion. rewrite update_point_eq. simpl fst.
  unfold repel, reach. simpl.
  destruct (mouse_x m); [destruct (Rlt_dec _ _) |]; reflexivity.
Qed.

Lemma repulsion_absent (m : Mouse) (p : Point) (n : nat) :
  mouse_x m = None -> repulsion Math_random m p n = (0, 0).
Proof.
  intros Hm. rewrite repulsion_eq. unfold repel. rewrite Hm.
  f_equal; ring.
Qed.

Lemma repulsion_far (m : Mouse) (p : Point) (n : nat) :
  maxDist <= reach m (integrate p) -> repulsion Math_random m p n = (0, 0).
Proof.
  intros Hfar. rewrite repulsion_eq. unfold repel.
  destruct (mouse_x m); [destruct (Rlt_dec _ _); [lra |] |]; f_equal; ring.
Qed.

Lemma repulsion_near (m : Mouse) (p : Point) (n : nat) (mx : R) :
  mouse_x m = Some mx -> reach m (integrate p) < maxDist ->
  let q := integrate p in
  let d := reach m q in
  repulsion Math_random m p n =
  ((x q - mx) / d * (push d * 0.9), (y q - toNumber (mouse_y m)) / d * (push d * 0.9)).
Proof.
  intros Hm Hnear q d. rewrite repulsion_eq. unfold repel. rewrite Hm.
  fold q. fold d. destruct (Rlt_dec d maxDist); [| contradiction].
  simpl. f_equal; ring.
Qed.

Lemma repulsion_magnitude (m : Mouse) (p : Point) (n : nat) :
  magnitude (repulsion Math_random m p n) < 0.54.
Proof.
  destruct (mouse_x m) as [mx |] eqn:Hm.
  2: { rewrite repulsion_absent by assumption. rewrite magnitude_zero. lra. }
  destruct (Rlt_dec (reach m (integrate p)) maxDist) as [Hnear | Hfar].
  2: { rewrite repulsion_far by lra. rewrite magnitude_zero. lra. }
  rewrite (repulsion_near m p n mx Hm Hnear). cbv zeta.
  pose proof (push_range _ (reach_pos m (integrate p)) Hnear) as Hpush.
  revert Hpush. unfold reach. rewrite Hm. simpl toNumber.
  set (dx := x (integrate p) - mx). set (dy := y (integrate p) - toNumber (mouse_y m)).
  unfold or_one. destruct (Req_dec_T (sqrt (dx * dx + dy * dy)) 0) as [Hz | Hnz].
  - intros _. destruct (sum_squares_zero dx dy Hz) as [-> ->].
    unfold Rdiv. rewrite !Rmult_0_l. rewrite magnitude_zero. lra.
  - intros Hpush. rewrite magnitude_scaled; [lra | assumption | lra].
Qed.

End Repulsion.

(** C6.  The displacement that the repulsion step applies to a point in one
    tick has magnitude at most [0.6 * 0.9 = 0.54], for every point and every
    pointer.  It is zero when the pointer is absent or at distance [maxDist]
    or more; when the distance [d] is below [maxDist = 180] it is
    [(dx / d, dy / d)] scaled by [force * 0.9] with
    [force = (maxDist - d) / maxDist * 0.6]; the velocity is not touched. *)
Theorem repulsion_bounded (Math_random : nat -> R) (m : Mouse) (p : Point) (n : nat) :
  let q := integrate p in
  let d := reach m q in
  let p' := fst (update_point Math_random m p n) in
  magnitude (repulsion Math_random m p n) <= 0.6 * 0.9 /\
  0.6 * 0.9 = 0.54 /\
  maxDist = 180 /\
  (mouse_x m = None \/ maxDist <= d -> repulsion Math_random m p n = (0, 0)) /\
  (forall mx, mouse_x m = Some mx -> d < maxDist ->
     repulsion Math_random m p n =
     ((x q - mx) / d * (push d * 0.9),
      (y q - toNumber (mouse_y m)) / d * (push d * 0.9))) /\
  push d = (maxDist - d) / maxDist * 0.6 /\
  vx p' = vx p + (ox p - x q) * 0.00012 + (Math_random n - 0.5) * 0.00008 /\
  vy p' = vy p + (oy p - y q) * 0.00012 + (Math_random (S n) - 0.5) * 0.00008.
Proof.
  intros q d p'.
  split. { pose proof (repulsion_magnitude Math_random m p n). lra. }
  split. { lra. }
  split. { reflexivity. }
  split.
  { intros [Hm | Hfar]; [now apply repulsion_absent | now apply repulsion_far]. }
  split. { intros mx Hm Hnear. now apply repulsion_near. }
  split. { reflexivity. }
  unfold p'. rewrite update_point_eq. simpl fst.
  destruct (repel_same_identity m
              (jitter (Math_random n) (Math_random (S n)) (restore (integrate p))))
    as (_ & -> & ->).
  split; reflexivity.
Qed.

(** The pointer exactly on the integrated position of a point. *)
Lemma repulsion_on_point (Math_random : nat -> R) (m : Mouse) (p : Point) (n : nat) :
  mouse_x m = Some (x p + vx p) -> toNumber (mouse_y m) = y p + vy p ->
  reach m (integrate p) = 1 /\ repulsion Math_random m p n = (0, 0).
Proof.
  intros Hx Hy.
  assert (Hreach : reach m (integrate p) = 1).
  { unfold reach. rewrite Hx, Hy. simpl.
    rewrite !Rminus_diag, Rmult_0_l, Rplus_0_l, sqrt_0.
    unfold or_one. destruct (Req_dec_T 0 0) as [_ | N]; [reflexivity | lra]. }
  split; [exact Hreach |].
  assert (Hnear : reach m (integrate p) < maxDist).
  { rewrite Hreach. unfold maxDist. lra. }
  rewrite (repulsion_near Math_random m p n _ Hx Hnear). cbv zeta.
  rewrite Hy. simpl. rewrite !Rminus_diag. unfold Rdiv. rewrite !Rmult_0_l.
  reflexivity.
Qed.

(** C5, as amended.  With the pointer exactly on a point the raw distance is
    [0] and the code uses [1] instead; the distance it divides by is never
    [0], for any point and pointer; the force is [(180 - 1) / 180 * 0.6], about
    [0.5967], and [force * 0.9] is about [0.537]; this factor scales
    [(dx / 1, dy / 1) = (0, 0)], so the point is displaced by exactly
    [(0, 0)]. *)
Theorem pointer_on_point (Math_random : nat -> R) (m : Mouse) (p : Point) (n : nat) :
  mouse_x m = Some (x p + vx p) -> toNumber (mouse_y m) = y p + vy p ->
  let q := integrate p in
  let dx := x q - toNumber (mouse_x m) in
  let dy := y q - toNumber (mouse_y m) in
  let p' := fst (update_point Math_random m p n) in
  sqrt (dx * dx + dy * dy) = 0 /\
  reach m q = 1 /\
  (forall m' q', reach m' q' <> 0) /\
  push (reach m q) = (180 - 1) / 180 * 0.6 /\
  0.5966 < push (reach m q) < 0.5967 /\
  0.5369 < push (reach m q) * 0.9 < 0.5371 /\
  repulsion Math_random m p n
    = (dx / 1 * (push (reach m q) * 0.9), dy / 1 * (push (reach m q) * 0.9)) /\
  repulsion Math_random m p n = (0, 0) /\
  x p' = x p + vx p /\ y p' = y p + vy p.
Proof.
  intros Hx Hy q dx dy p'.
  destruct (repulsion_on_point Math_random m p n Hx Hy) as [Hreach Hrep].
  assert (Hdx : dx = 0) by (unfold dx, q; rewrite Hx; simpl; ring).
  assert (Hdy : dy = 0) by (unfold dy, q; rewrite Hy; simpl; ring).
  split. { rewrite Hdx, Hdy, Rmult_0_l, Rplus_0_l. apply sqrt_0. }
  split. { exact Hreach. }
  split. { intros m' q'. pose proof (reach_pos m' q'). lra. }
  fold q in Hreach. rewrite Hreach. unfold push, maxDist.
  split. { reflexivity. }
  split. { lra. }
  split. { lra. }
  split. { rewrite Hrep, Hdx, Hdy. f_equal; lra. }
  split. { exact Hrep. }
  unfold repulsion in Hrep. fold p' in Hrep.
  injection Hrep as Hrx Hry. split; lra.
Qed.

Lemma pointer_on_point_witness :
  mouse_x pointer_on_it = Some (x resting_point + vx resting_point) /\
  toNumber (mouse_y pointer_on_it) = y resting_point + vy resting_point /\
  repulsion still pointer_on_it resting_point 0 = (0, 0).
Proof.
  assert (Hx : mouse_x pointer_on_it = Some (x resting_point + vx resting_point)).
  { simpl. f_equal. ring. }
  assert (Hy : toNumber (mouse_y pointer_on_it) = y resting_point + vy resting_point).
  { simpl. ring. }
  split; [exact Hx |]. split; [exact Hy |].
  apply (pointer_on_point still pointer_on_it resting_point 0 Hx Hy).
Defined.

(** C5, the claim as stated fails: with the pointer on the point, the
    displacement is not of about [0.537] units, it is zero. *)
Lemma on_point_no_displacement :
  magnitude (repulsion still pointer_on_it resting_point 0) = 0 /\
  ~ (0.53 <= magnitude (repulsion still pointer_on_it resting_point 0)).
Proof.
  assert (Hx : mouse_x pointer_on_it = Some (x resting_point + vx resting_point)).
  { simpl. f_equal. ring. }
  assert (Hy : toNumber (mouse_y pointer_on_it) = y resting_point + vy resting_point).
  { simpl. ring. }
  destruct (repulsion_on_point still pointer_on_it resting_point 0 Hx Hy) as [_ ->].
  rewrite magnitude_zero. split; [reflexivity | lra].
Qed.

(** ** Rest seeking *)

Lemma Forall2_compose {T : Type} (P : T -> T -> Prop) :
  (forall a b c, P a b -> P b c -> P a c) ->
  forall l1 l2 l3, Forall2 P l1 l2 -> Forall2 P l2 l3 -> Forall2 P l1 l3.
Proof.
  intros Htrans l1 l2 l3 H12. revert l3.
  induction H12 as [| a b l1 l2 Hab H12 IH]; intros l3 H23.
  - inversion H23. constructor.
  - inversion H23 as [| b' c l2' l3' Hbc H23']; subst.
    constructor; [now apply (Htrans a b c) | now apply IH].
Qed.

Lemma Forall2_same {T : Type} (P : T -> T -> Prop) :
  (forall a, P a a) -> forall l, Forall2 P l l.
Proof. intros Hrefl l. induction l; constructor; auto. Qed.

Lemma update_point_still (m : Mouse) (p : Point) (n : nat) :
  mouse_x m = None ->
  fst (update_point still m p n) =
  {| x := x p + vx p; y := y p + vy p; ox := ox p; oy := oy p;
     vx := vx p + (ox p - (x p + vx p)) * 0.00012;
     vy := vy p + (oy p - (y p + vy p)) * 0.00012;
     col := col p; row := row p |}.
Proof.
  intros Hm. rewrite update_point_eq. simpl fst.
  unfold repel. rewrite Hm. unfold jitter, restore, integrate, still. simpl.
  f_equal; lra.
Qed.

Lemma update_point_undisturbed (m : Mouse) (p : Point) (n : nat) :
  mouse_x m = None -> undisturbed p (fst (update_point still m p n)).
Proof.
  intros Hm. rewrite update_point_still by assumption.
  unfold undisturbed, same_identity, energy_x, energy_y, stiffness. simpl.
  repeat split; ring.
Qed.

Lemma undisturbed_trans (a b c : Point) :
  undisturbed a b -> undisturbed b c -> undisturbed a c.
Proof.
  unfold undisturbed, same_identity.
  intros ((H1 & H2 & H3 & H4) & H5 & H6) ((G1 & G2 & G3 & G4) & G5 & G6).
  repeat split; congruence.
Qed.

Lemma ticks_undisturbed (k : nat) (st : State) :
  mouse_x (mouse st) = None ->
  Forall2 undisturbed (points st) (points (ticks still k st)).
Proof.
  revert st. induction k as [| k IH]; intros st Hm; simpl.
  - apply Forall2_same. intros a. unfold undisturbed, same_identity. tauto.
  - apply (Forall2_compose undisturbed undisturbed_trans _
             (points (update still st))).
    + apply update_points_Forall2. intros p n.
      now apply update_point_undisturbed.
    + apply IH. destruct (update_fields still st) as (_ & _ & _ & -> & _).
      exact Hm.
Qed.

Lemma abs_sum_square (a b : R) :
  (Rabs a + Rabs b) * (Rabs a + Rabs b) <= 2 * (a * a + b * b).
Proof.
  pose proof (Rle_0_sqr (a - b)) as H1. pose proof (Rle_0_sqr (a + b)) as H2.
  unfold Rsqr in H1, H2.
  unfold Rabs. destruct (Rcase_abs a) as [Ha | Ha], (Rcase_abs b) as [Hb | Hb]; lra.
Qed.

Lemma energy_bounds_displacement (p : Point) :
  stiffness * (1 - stiffness / 4) * (displacement p * displacement p)
  <= 2 * (energy_x p + energy_y p).
Proof.
  unfold displacement, energy_x, energy_y, stiffness.
  set (a := x p - ox p). set (b := y p - oy p).
  set (u := vx p). set (v := vy p).
  pose proof (abs_sum_square a b) as Hab.
  assert (Hx : 0.00012 * (1 - 0.00012 / 4) * (a * a)
               <= u * u + 0.00012 * a * u + 0.00012 * a * a).
  { pose proof (Rle_0_sqr (u + 0.00006 * a)) as Hs. unfold Rsqr in Hs. lra. }
  assert (Hy : 0.00012 * (1 - 0.00012 / 4) * (b * b)
               <= v * v + 0.00012 * b * v + 0.00012 * b * b).
  { pose proof (Rle_0_sqr (v + 0.00006 * b)) as Hs. unfold Rsqr in Hs. lra. }
  lra.
Qed.

(** C3, as amended.  With the pointer absent and every jitter zero, any number
    of ticks keeps, for every point, the rest position and the quantities
    [v^2 + k d v + k d^2] of both axes ([d] the offset from rest, [v] the
    velocity, [k = 0.00012]): the motion is an oscillation without damping.
    Hence [|x - ox| + |y - oy|] never diverges: after any number of ticks its
    square times [k (1 - k / 4)] is at most twice the sum of the two
    quantities of the starting point. *)
Theorem rest_seeking_bounded (k : nat) (st : State) :
  mouse_x (mouse st) = None ->
  Forall2
    (fun p p' =>
       ox p' = ox p /\ oy p' = oy p /\
       energy_x p' = energy_x p /\ energy_y p' = energy_y p /\
       stiffness * (1 - stiffness / 4) * (displacement p' * displacement p')
       <= 2 * (energy_x p + energy_y p))
    (points st) (points (ticks still k st)).
Proof.
  intros Hm. pose proof (ticks_undisturbed k st Hm) as H.
  induction H as [| p p' l l' Hpp' H IH]; constructor; [| exact IH].
  destruct Hpp' as ((H1 & H2 & _) & Hx & Hy).
  repeat split; try assumption.
  rewrite <- Hx, <- Hy. apply energy_bounds_displacement.
Qed.

Lemma rest_seeking_bounded_witness :
  mouse_x (mouse drifting) = None /\
  Forall2
    (fun p p' =>
       ox p' = ox p /\ oy p' = oy p /\
       energy_x p' = energy_x p /\ energy_y p' = energy_y p /\
       stiffness * (1 - stiffness / 4) * (displacement p' * displacement p')
       <= 2 * (energy_x p + energy_y p))
    (points drifting) (points (ticks still 3 drifting)).
Proof.
  split; [reflexivity |].
  apply (rest_seeking_bounded 3 drifting). reflexivity.
Defined.

(** C3, the claim as stated fails: a point at its rest position that has a
    velocity moves away from it in the very next tick, whether the random
    source makes the jitter zero or is itself zero. *)
Lemma rest_seeking_not_decreasing :
  Forall2 (fun p p' => displacement p = 0 /\ displacement p' = 0.01)
    (points drifting) (points (update still drifting)) /\
  Forall2 (fun p p' => displacement p = 0 /\ displacement p' = 0.01)
    (points drifting) (points (update lowest drifting)).
Proof.
  assert (H0 : displacement drifting_point = 0).
  { unfold displacement, drifting_point. simpl.
    rewrite !Rminus_diag, Rabs_R0. lra. }
  assert (H1 : forall rnd,
             displacement (fst (update_point rnd (mouse drifting) drifting_point 4%nat))
             = 0.01).
  { intros rnd. rewrite update_point_eq. simpl fst.
    unfold repel, displacement. simpl.
    replace (3 + 0.01 - 3) with 0.01 by lra.
    replace (-3 + 0 - -3) with 0 by lra.
    rewrite Rabs_R0, Rabs_pos_eq by lra. lra. }
  split.
  - destruct (update_fields still drifting) as [-> _]. simpl points.
    rewrite forM_cons. simpl fst. constructor; [| constructor].
    split; [exact H0 | apply H1].
  - destruct (update_fields lowest drifting) as [-> _]. simpl points.
    rewrite forM_cons. simpl fst. constructor; [| constructor].
    split; [exact H0 | apply H1].
Qed.

(** ** Frame scheduler *)

Section Scheduler.

Variable Math_random : nat -> R.

Lemma animate_eq (now : Z) (st : State) :
  animate Math_random now st =
  if (Z.rem (frameCount st + 1)
        ((if (now - lastScrollTime st <? 160)%Z then 3 else 0) + 1) =? 0)%Z
  then (update Math_random (count_frame st),
        [Paint (draw (update Math_random (count_frame st)));
         requestAnimationFrame])
  else (count_frame st, [requestAnimationFrame]).
Proof. reflexivity. Qed.

Lemma animate_work (now : Z) (st : State) :
  performs_work (snd (animate Math_random now st)) =
  if (now - lastScrollTime st <? 160)%Z
  then (Z.rem (frameCount st + 1) 4 =? 0)%Z
  else true.
Proof.
  rewrite animate_eq.
  destruct (now - lastScrollTime st <? 160)%Z; simpl Z.add.
  - destruct (Z.rem (frameCount st + 1) 4 =? 0)%Z; reflexivity.
  - rewrite Z.rem_1_r. reflexivity.
Qed.

Lemma animate_state (now : Z) (st : State) :
  frameCount (fst (animate Math_random now st)) = (frameCount st + 1)%Z /\
  lastScrollTime (fst (animate Math_random now st)) = lastScrollTime st /\
  cols (fst (animate Math_random now st)) = cols st /\
  rows (fst (animate Math_random now st)) = rows st.
Proof.
  rewrite animate_eq.
  destruct (Z.rem _ _ =? 0)%Z; simpl fst.
  - destruct (update_fields Math_random (count_frame st))
      as (_ & -> & -> & _ & -> & -> & _).
    simpl. tauto.
  - simpl. tauto.
Qed.

Lemma animate_rerequested (now : Z) (st : State) :
  rerequested (snd (animate Math_random now st)) = true.
Proof.
  rewrite animate_eq. destruct (Z.rem _ _ =? 0)%Z; reflexivity.
Qed.

(** While every run falls within 160 ms of the last scroll, the runs that do
    the work are those whose frame count is a multiple of four. *)
Lemma frames_work (times : list Z) (st : State) :
  Forall (fun now => (now - lastScrollTime st < 160)%Z) times ->
  map (fun r => performs_work (snd r)) (frames Math_random times st) =
  map (fun k => (Z.rem (frameCount st + Z.of_nat k + 1) 4 =? 0)%Z)
      (seq 0 (length times)).
Proof.
  revert st. induction times as [| now later IH]; intros st Hall.
  - reflexivity.
  - inversion Hall as [| ? ? Hnow Hlater]; subst.
    destruct (animate_state now st) as (Hfc & Hls & _).
    simpl frames. simpl length. simpl seq. rewrite !map_cons. f_equal.
    + rewrite animate_work.
      destruct (Z.ltb_spec (now - lastScrollTime st) 160); [| lia].
      now rewrite Z.add_0_r.
    + rewrite IH by (rewrite Hls; exact Hlater).
      rewrite <- seq_shift, map_map, Hfc.
      apply map_ext. intros k. do 2 f_equal. lia.
Qed.


Lemma frames_rerequested (times : list Z) (st : State) :
  Forall (fun r => rerequested (snd r) = true) (frames Math_random times st).
Proof.
  revert st. induction times as [| now later IH]; intros st; simpl.
  - constructor.
  - constructor; [apply animate_rerequested | apply IH].
Qed.

End Scheduler.

(** C4, as amended.  A run of [animate] counts the frame, takes
    [scrolling = now - lastScrollTime < 160], and does the update and the
    draw when it is not scrolling, or when it is and the frame count (which a
    scroll does not reset) is a multiple of four; whether or not it does, it
    requests the next run.  So of the runs that follow a scroll within 160 ms,
    the [k]-th does the work exactly when the frame count at the scroll plus
    [k] is a multiple of four, and each of them requests the next run. *)
Theorem animate_throttle (Math_random : nat -> R) (st : State)
    (now t0 : Z) (times : list Z) (k : nat) :
  Forall (fun t => (t - t0 < 160)%Z) times -> (k < length times)%nat ->
  let r := animate Math_random now st in
  let scrolling := (now - lastScrollTime st <? 160)%Z in
  let after := frames Math_random times (onScroll t0 st) in
  frameCount (fst r) = (frameCount st + 1)%Z /\
  performs_work (snd r) =
    (if scrolling then (Z.rem (frameCount st + 1) 4 =? 0)%Z else true) /\
  (performs_work (snd r) = true ->
     fst r = update Math_random (count_frame st) /\
     snd r = [Paint (draw (fst r)); requestAnimationFrame]) /\
  (performs_work (snd r) = false ->
     fst r = count_frame st /\ snd r = [requestAnimationFrame]) /\
  rerequested (snd r) = true /\
  nth_error (map (fun r => performs_work (snd r)) after) k =
    Some (Z.rem (frameCount st + Z.of_nat k + 1) 4 =? 0)%Z /\
  Forall (fun r => rerequested (snd r) = true) after.
Proof.
  intros Hall Hk r scrolling after.
  split. { apply animate_state. }
  split. { apply animate_work. }
  split.
  { unfold r. rewrite animate_eq.
    destruct (Z.rem _ _ =? 0)%Z; simpl; [tauto | discriminate]. }
  split.
  { unfold r. rewrite animate_eq.
    destruct (Z.rem _ _ =? 0)%Z; simpl; [discriminate | tauto]. }
  split. { apply animate_rerequested. }
  split.
  - unfold after. rewrite frames_work by exact Hall.
    rewrite nth_error_map, nth_error_seq.
    destruct (Nat.ltb_spec k (length times)); [reflexivity | lia].
  - apply frames_rerequested.
Qed.

Lemma animate_throttle_witness :
  Forall (fun t => (t - 1000 < 160)%Z) [1016; 1032; 1048]%Z /\
  (2 < length [1016; 1032; 1048]%Z)%nat /\
  nth_error
    (map (fun r => performs_work (snd r))
       (frames still [1016; 1032; 1048]%Z (onScroll 1000 tiny))) 2
  = Some true.
Proof.
  assert (Hall : Forall (fun t => (t - 1000 < 160)%Z) [1016; 1032; 1048]%Z).
  { repeat constructor. }
  assert (Hk : (2 < length [1016; 1032; 1048]%Z)%nat) by (simpl; lia).
  split; [exact Hall |]. split; [exact Hk |].
  apply (animate_throttle still tiny 1016 1000 [1016; 1032; 1048]%Z 2 Hall Hk).
Defined.

Lemma started_frameCount : frameCount started = 1%Z.
Proof.
  unfold started, start.
  destruct (animate_state still 1700000000000 (resize still 800 600 initial))
    as (-> & _).
  destruct (resize_fields still 800 600 initial) as (_ & _ & _ & -> & _).
  reflexivity.
Qed.

(** C4, the claim as stated fails: on the page that has just started (one
    frame counted), a scroll followed by four runs within 160 ms has the work
    done by the third run, not by the fourth. *)
Lemma fourth_tick_not_the_one :
  map (fun r => performs_work (snd r))
    (frames still
       [1700000000021; 1700000000038; 1700000000055; 1700000000071]%Z
       (onScroll 1700000000005 started))
  = [false; false; true; false].
Proof.
  rewrite frames_work.
  - simpl frameCount. rewrite started_frameCount. reflexivity.
  - simpl lastScrollTime. repeat constructor.
Qed.

(** ** Renderer: the opacity of an edge *)

Lemma draw_edge_eq (ps : list Point) (p q : Point) (n : Z) :
  at_index ps n = Some q ->
  draw_edge ps p n =
  if Rlt_dec (distance p q) maxDist
  then [strokeLine (x p) (y p) (x q) (y q) ((1 - distance p q / maxDist) * 0.32)]
  else [].
Proof. intros Hq. unfold draw_edge. rewrite Hq. reflexivity. Qed.

Lemma distance_nonneg (p q : Point) : 0 <= distance p q.
Proof. apply sqrt_pos. Qed.

Lemma draw_edge_far (ps : list Point) (p q : Point) (n : Z) :
  at_index ps n = Some q -> maxDist <= distance p q -> draw_edge ps p n = [].
Proof.
  intros Hq Hfar. rewrite (draw_edge_eq ps p q n Hq).
  destruct (Rlt_dec (distance p q) maxDist); [lra | reflexivity].
Qed.

Lemma within_maxDist (a b : R) :
  sqrt (a * a + b * b) < maxDist <-> a * a + b * b < 32400.
Proof.
  unfold maxDist.
  assert (Hs : 0 <= a * a + b * b).
  { pose proof (Rle_0_sqr a) as Ha. pose proof (Rle_0_sqr b) as Hb.
    unfold Rsqr in Ha, Hb. lra. }
  assert (H180 : sqrt (180 * 180) = 180) by (apply sqrt_square; lra).
  split.
  - intros Hlt. destruct (Rlt_dec (a * a + b * b) 32400) as [| Hge]; [assumption |].
    exfalso. assert (Hle : sqrt (180 * 180) <= sqrt (a * a + b * b)).
    { apply sqrt_le_1; lra. }
    lra.
  - intros Hlt. rewrite <- H180. apply sqrt_lt_1; lra.
Qed.

Lemma draw_edge_drawn (ps : list Point) (p q : Point) (n : Z) :
  at_index ps n = Some q ->
  (draw_edge ps p n = [] <->
   32400 <= (x p - x q) * (x p - x q) + (y p - y q) * (y p - y q)).
Proof.
  intros Hq. rewrite (draw_edge_eq ps p q n Hq). unfold distance.
  destruct (Rlt_dec _ maxDist) as [Hlt | Hge].
  - apply within_maxDist in Hlt. split; [discriminate | lra].
  - split; [| reflexivity]. intros _.
    destruct (Rlt_dec ((x p - x q) * (x p - x q) + (y p - y q) * (y p - y q)) 32400)
      as [Hlt |]; [| lra].
    apply within_maxDist in Hlt. contradiction.
Qed.

(** C8, as amended.  The edge from [p] to its candidate neighbour [q] is
    stroked exactly when the distance [d] between their current positions is
    below [maxDist], with opacity [(1 - d / maxDist) * 0.32], which then lies
    in (0, 0.32]; at [d = 0] the opacity is the maximum, 0.32; at
    [d = maxDist], where the formula gives 0, nothing is stroked. *)
Theorem edge_opacity (ps : list Point) (p q : Point) (n : Z) :
  at_index ps n = Some q ->
  let d := distance p q in
  let alpha := 1 - d / maxDist in
  (d < maxDist ->
     draw_edge ps p n = [strokeLine (x p) (y p) (x q) (y q) (alpha * 0.32)] /\
     0 < alpha * 0.32 <= 0.32) /\
  (maxDist <= d -> draw_edge ps p n = []) /\
  (d = 0 ->
     draw_edge ps p n = [strokeLine (x p) (y p) (x q) (y q) 0.32]) /\
  (d = maxDist -> alpha * 0.32 = 0 /\ draw_edge ps p n = []).
Proof.
  intros Hq d alpha.
  pose proof (distance_nonneg p q) as Hd. fold d in Hd.
  pose proof (draw_edge_eq ps p q n Hq) as Heq. fold d in Heq.
  split; [| split; [| split]].
  - intros Hnear. rewrite Heq.
    destruct (Rlt_dec d maxDist); [| contradiction].
    split; [reflexivity |].
    unfold alpha, maxDist in *.
    assert (0 <= d / 180 < 1).
    { split.
      - apply Rmult_le_pos; lra.
      - apply (Rmult_lt_reg_r 180); [lra |]. field_simplify. lra. }
    lra.
  - intros Hfar. now apply (draw_edge_far ps p q n).
  - intros Hz. rewrite Heq. unfold alpha. rewrite Hz.
    destruct (Rlt_dec 0 maxDist) as [_ | N]; [| unfold maxDist in N; lra].
    do 2 f_equal. unfold maxDist. lra.
  - intros Hm. split.
    + unfold alpha. rewrite Hm. unfold maxDist. lra.
    + apply (draw_edge_far ps p q n Hq). fold d. lra.
Qed.

Lemma ends_distance : distance left_end right_end = 180.
Proof.
  unfold distance, left_end, right_end. simpl.
  replace ((0 - 180) * (0 - 180) + (0 - 0) * (0 - 0)) with (180 * 180) by lra.
  apply sqrt_square. lra.
Qed.

Lemma edge_opacity_witness :
  at_index [left_end; right_end] 1 = Some right_end /\
  draw_edge [left_end; right_end] left_end 1 = [].
Proof.
  assert (Hq : at_index [left_end; right_end] 1 = Some right_end) by reflexivity.
  split; [exact Hq |].
  apply (edge_opacity [left_end; right_end] left_end right_end 1 Hq).
  rewrite ends_distance. unfold maxDist. lra.
Defined.

(** C8, the claim as stated fails: an edge between two points exactly
    [maxDist] apart is not rendered with opacity 0, it is not rendered. *)
Lemma edge_at_maxDist_not_drawn :
  distance left_end right_end = maxDist /\
  draw_edge [left_end; right_end] left_end 1 = [] /\
  ~ In (strokeLine 0 0 180 0 0) (draw_edge [left_end; right_end] left_end 1).
Proof.
  assert (Hd : distance left_end right_end = maxDist) by apply ends_distance.
  assert (He : draw_edge [left_end; right_end] left_end 1 = []).
  { apply (draw_edge_far _ _ right_end); [reflexivity | rewrite Hd; lra]. }
  split; [exact Hd |]. split; [exact He |].
  rewrite He. intros [].
Qed.

(** ** Renderer: the edges of a frame *)

Lemma in_grid_iff (cols rows i j : Z) :
  in_grid cols rows (i, j) = true <-> (0 <= i < cols)%Z /\ (0 <= j < rows)%Z.
Proof.
  unfold in_grid. simpl.
  rewrite !andb_true_iff, !Z.leb_le, !Z.ltb_lt. lia.
Qed.

Lemma idx_injective (rows i j i' j' : Z) :
  (0 <= j < rows)%Z -> (0 <= j' < rows)%Z ->
  idx rows i j = idx rows i' j' -> i = i' /\ j = j'.
Proof.
  unfold idx. intros Hj Hj' Heq.
  assert (Hi : i = i').
  { destruct (Z.lt_trichotomy i i') as [Hlt | [Heqi | Hgt]].
    - exfalso. assert ((i' - i) * rows >= rows)%Z by nia. lia.
    - exact Heqi.
    - exfalso. assert ((i - i') * rows >= rows)%Z by nia. lia. }
  subst i'. split; [reflexivity | lia].
Qed.

(** The array [neighbors] of a point of the lattice holds the indices of
    those of its four places that are on the lattice. *)
Lemma neighbors_eq (cols rows i j : Z) :
  (0 <= i < cols)%Z -> (0 <= j < rows)%Z ->
  neighbors cols rows i j =
  map (fun c => idx rows (fst c) (snd c)) (filter (in_grid cols rows) (four i j)).
Proof.
  intros Hi Hj. unfold neighbors, four, in_grid. simpl.
  rewrite Z.geb_leb.
  destruct (Z.ltb_spec (i + 1) cols), (Z.ltb_spec (j + 1) rows),
    (Z.leb_spec 0 (j - 1)), (Z.leb_spec 0 (i + 1)), (Z.leb_spec 0 i),
    (Z.ltb_spec i cols), (Z.leb_spec 0 j), (Z.ltb_spec j rows),
    (Z.leb_spec 0 (j + 1)), (Z.ltb_spec (j - 1) rows);
    try lia; reflexivity.
Qed.

Lemma four_NoDup (i j : Z) : NoDup (four i j).
Proof.
  unfold four. repeat constructor; simpl; intros H;
    repeat (destruct H as [H | H]; [injection H; lia |]); exact H.
Qed.

Lemma neighbors_NoDup (cols rows i j : Z) :
  (0 <= i < cols)%Z -> (0 <= j < rows)%Z -> NoDup (neighbors cols rows i j).
Proof.
  intros Hi Hj. rewrite neighbors_eq by assumption.
  apply Injective_map_NoDup_in.
  - intros [a b] [a' b'] Hin Hin' Heq.
    apply filter_In in Hin. apply filter_In in Hin'.
    destruct Hin as [_ Hg]. destruct Hin' as [_ Hg'].
    apply in_grid_iff in Hg. apply in_grid_iff in Hg'. simpl in Heq.
    destruct (idx_injective rows a b a' b') as [-> ->]; tauto.
  - apply NoDup_filter, four_NoDup.
Qed.

(** A neighbour comes later in the array than the point itself. *)
Lemma neighbors_later (cols rows i j n : Z) :
  (0 <= i < cols)%Z -> (0 <= j < rows)%Z ->
  In n (neighbors cols rows i j) -> (idx rows i j < n)%Z.
Proof.
  intros Hi Hj. rewrite neighbors_eq by assumption.
  intros Hin. apply in_map_iff in Hin. destruct Hin as [[a b] [<- Hin]].
  apply filter_In in Hin. destruct Hin as [Hfour Hg].
  apply in_grid_iff in Hg. unfold idx. simpl.
  unfold four in Hfour. simpl in Hfour.
  destruct Hfour as [H | [H | [H | [H | []]]]]; injection H as <- <-; nia.
Qed.

Lemma indexed_from_In (ps : list Point) (k n : Z) (p : Point) :
  In (n, p) (indexed_from k ps) <->
  exists t, n = (k + Z.of_nat t)%Z /\ nth_error ps t = Some p.
Proof.
  revert k. induction ps as [| p0 ps IH]; intros k; simpl.
  - split; [intros [] | intros [[| t] [_ H]]; discriminate].
  - rewrite IH. split.
    + intros [H | [t [Hn Ht]]].
      * injection H as <- <-. exists 0%nat. split; [lia | reflexivity].
      * exists (S t). split; [lia | exact Ht].
    + intros [[| t] [Hn Ht]].
      * left. simpl in Ht. injection Ht as ->. f_equal. lia.
      * right. exists t. split; [lia | exact Ht].
Qed.

Lemma indexed_In (ps : list Point) (n : Z) (p : Point) :
  In (n, p) (indexed ps) <-> at_index ps n = Some p.
Proof.
  unfold indexed, at_index. rewrite indexed_from_In. split.
  - intros [t [-> Ht]]. simpl.
    destruct (Z.ltb_spec (Z.of_nat t) 0); [lia |]. now rewrite Nat2Z.id.
  - destruct (Z.ltb_spec n 0); [discriminate |].
    intros Ht. exists (Z.to_nat n). split; [lia | exact Ht].
Qed.

Lemma indexed_from_points (ps : list Point) (k : Z) :
  map snd (indexed_from k ps) = ps.
Proof.
  revert k. induction ps as [| p0 ps IH]; intros k; simpl.
  - reflexivity.
  - now rewrite IH.
Qed.

Lemma indexed_from_keys (ps : list Point) (k : Z) :
  NoDup (map fst (indexed_from k ps)).
Proof.
  revert k. induction ps as [| p0 ps IH]; intros k; simpl.
  - constructor.
  - constructor; [| apply IH].
    intros Hin. apply in_map_iff in Hin. destruct Hin as [[n p] [Hn Hin]].
    simpl in Hn. subst n. apply indexed_from_In in Hin.
    destruct Hin as [t [Hk _]]. lia.
Qed.

Lemma lattice_nth (cols rows i j : Z) :
  (0 <= i < cols)%Z -> (0 <= j < rows)%Z ->
  nth_error (lattice cols rows) (Z.to_nat (idx rows i j)) = Some (i, j).
Proof.
  intros Hi Hj. unfold lattice, idx. rewrite flat_map_concat_map.
  replace (Z.to_nat (i * rows + j))
    with (Z.to_nat i * Z.to_nat rows + Z.to_nat j)%nat
    by (rewrite Z2Nat.inj_add, Z2Nat.inj_mul; solve [reflexivity | lia | nia]).
  rewrite (concat_nth (Z.to_nat rows) _ _ _ (map (pair i) (range rows))).
  - rewrite nth_error_map, range_nth by lia. simpl. do 2 f_equal. lia.
  - apply Forall_forall. intros l Hl. apply in_map_iff in Hl.
    destruct Hl as [i0 [<- _]]. now rewrite length_map, range_length.
  - rewrite nth_error_map, range_nth by lia. simpl. do 3 f_equal. lia.
  - lia.
Qed.

Section Frame.

Variable st : State.
Hypothesis shaped : grid_shaped st.

(** In a grid the point of column [i], row [j] sits at [idx(i, j)]. *)
Lemma grid_point (k : Z) (p : Point) :
  at_index (points st) k = Some p ->
  (0 <= col p < cols st)%Z /\ (0 <= row p < rows st)%Z /\
  k = idx (rows st) (col p) (row p).
Proof.
  unfold at_index. destruct (Z.ltb_spec k 0) as [| Hk]; [discriminate |].
  intros Hp.
  assert (Hn : nth_error (lattice (cols st) (rows st)) (Z.to_nat k)
               = Some (col p, row p)).
  { rewrite <- shaped, nth_error_map, Hp. reflexivity. }
  assert (Hin : (0 <= col p < cols st)%Z /\ (0 <= row p < rows st)%Z).
  { apply lattice_In. eapply nth_error_In. exact Hn. }
  destruct Hin as [Hc Hr]. split; [exact Hc |]. split; [exact Hr |].
  pose proof (lattice_nth (cols st) (rows st) (col p) (row p) Hc Hr) as Hm.
  assert (Heq : Z.to_nat k = Z.to_nat (idx (rows st) (col p) (row p))).
  { apply (proj1 (NoDup_nth_error (lattice (cols st) (rows st)))
             (lattice_NoDup _ _)).
    - apply nth_error_Some. rewrite Hn. discriminate.
    - now rewrite Hn, Hm. }
  unfold idx in *. nia.
Qed.

Lemma grid_at (i j : Z) :
  (0 <= i < cols st)%Z -> (0 <= j < rows st)%Z ->
  exists p, at_index (points st) (idx (rows st) i j) = Some p /\
            col p = i /\ row p = j.
Proof.
  intros Hi Hj.
  pose proof (lattice_nth (cols st) (rows st) i j Hi Hj) as Hn.
  rewrite <- shaped, nth_error_map in Hn.
  unfold at_index. destruct (Z.ltb_spec (idx (rows st) i j) 0) as [Hneg |].
  { unfold idx in Hneg. nia. }
  destruct (nth_error (points st) (Z.to_nat (idx (rows st) i j))) as [p |];
    [| discriminate].
  simpl in Hn. injection Hn as Hc Hr. now exists p.
Qed.

Lemma candidate_edges_In (k n : Z) :
  In (k, n) (candidate_edges (cols st) (rows st) (points st)) <->
  exists p, at_index (points st) k = Some p /\
            In n (neighbors (cols st) (rows st) (col p) (row p)).
Proof.
  unfold candidate_edges. rewrite in_flat_map. split.
  - intros [[k0 p] [Hkp Hin]]. simpl in Hin. apply in_map_iff in Hin.
    destruct Hin as [n0 [Heq Hn0]]. injection Heq as -> ->.
    exists p. split; [now apply indexed_In | exact Hn0].
  - intros [p [Hp Hn]]. exists (k, p). split; [now apply indexed_In |].
    simpl. now apply in_map.
Qed.

Lemma candidate_edges_later (k n : Z) :
  In (k, n) (candidate_edges (cols st) (rows st) (points st)) -> (k < n)%Z.
Proof.
  intros Hin. apply candidate_edges_In in Hin. destruct Hin as [p [Hp Hn]].
  destruct (grid_point k p Hp) as (Hc & Hr & ->).
  now apply (neighbors_later (cols st) (rows st)).
Qed.

Lemma candidate_edges_NoDup :
  NoDup (candidate_edges (cols st) (rows st) (points st)).
Proof.
  unfold candidate_edges.
  assert (Hkeys : NoDup (map fst (indexed (points st))))
    by apply indexed_from_keys.
  assert (Hall : forall kp, In kp (indexed (points st)) ->
                 NoDup (neighbors (cols st) (rows st) (col (snd kp)) (row (snd kp)))).
  { intros [k p] Hkp. apply indexed_In in Hkp.
    destruct (grid_point k p Hkp) as (Hc & Hr & _).
    now apply neighbors_NoDup. }
  induction (indexed (points st)) as [| [k p] l IH]; simpl.
  - constructor.
  - simpl in Hkeys. inversion Hkeys as [| ? ? Hk Hkeys']; subst.
    apply NoDup_app.
    + apply Injective_map_NoDup.
      * intros a b Hab. now injection Hab.
      * apply (Hall (k, p)). now left.
    + apply IH; [exact Hkeys' |]. intros kp Hkp. apply Hall. now right.
    + intros [a b] Hin1 Hin2. apply in_map_iff in Hin1.
      destruct Hin1 as [n0 [Heq _]]. injection Heq as <- <-.
      apply in_flat_map in Hin2. destruct Hin2 as [[k1 p1] [Hkp1 Hin2]].
      simpl in Hin2. apply in_map_iff in Hin2.
      destruct Hin2 as [n1 [Heq _]]. injection Heq as -> _.
      apply Hk. apply in_map_iff. now exists (k, p1).
Qed.

End Frame.

(** The strokes of a frame are those of its candidate edges, in order. *)
Lemma draw_edge_strokes (ps : list Point) (p : Point) (n : Z) :
  filter is_stroke (draw_edge ps p n) = draw_edge ps p n /\
  (length (draw_edge ps p n) <= 1)%nat.
Proof.
  unfold draw_edge. destruct (at_index ps n) as [q |].
  - destruct (Rlt_dec _ _); simpl; split; auto.
  - simpl. split; [reflexivity | lia].
Qed.

Lemma filter_flat_map {A B : Type} (f : B -> bool) (g : A -> list B) (l : list A) :
  filter f (flat_map g l) = flat_map (fun a => filter f (g a)) l.
Proof.
  induction l as [| a l IH]; simpl.
  - reflexivity.
  - now rewrite filter_app, IH.
Qed.

Lemma flat_map_ext_In {A B : Type} (f g : A -> list B) (l : list A) :
  (forall a, In a l -> f a = g a) -> flat_map f l = flat_map g l.
Proof.
  induction l as [| a l IH]; intros H; simpl.
  - reflexivity.
  - rewrite (H a) by now left. rewrite IH; [reflexivity |].
    intros b Hb. apply H. now right.
Qed.

Lemma flat_map_flat_map {A B C : Type} (f : B -> list C) (g : A -> list B)
    (l : list A) :
  flat_map f (flat_map g l) = flat_map (fun a => flat_map f (g a)) l.
Proof.
  induction l as [| a l IH]; simpl.
  - reflexivity.
  - now rewrite flat_map_app, IH.
Qed.

Lemma draw_strokes (st : State) :
  filter is_stroke (draw st) =
  flat_map (edge_ops (points st))
           (candidate_edges (cols st) (rows st) (points st)).
Proof.
  unfold draw, candidate_edges. simpl filter. rewrite filter_app.
  replace (filter is_stroke
             match mouse_x (mouse st) with
             | Some mx => [fillHalo mx (toNumber (mouse_y (mouse st)))]
             | None => []
             end) with (@nil CanvasOp) by (now destruct (mouse_x (mouse st))).
  rewrite app_nil_r, filter_flat_map, flat_map_flat_map.
  rewrite <- (indexed_from_points (points st) 0) at 1.
  fold (indexed (points st)).
  rewrite flat_map_concat_map, map_map, <- flat_map_concat_map.
  apply flat_map_ext_In. intros [k p] Hkp. apply indexed_In in Hkp.
  unfold draw_point. simpl filter. rewrite filter_flat_map.
  rewrite flat_map_concat_map, flat_map_concat_map, map_map. f_equal.
  apply map_ext. intros n. unfold edge_ops. simpl. rewrite Hkp.
  apply draw_edge_strokes.
Qed.

(** Every state the engine reaches after its first [resize] is a grid. *)
Lemma resize_grid_shaped (Math_random : nat -> R) (w h : R) (st : State) :
  grid_shaped (resize Math_random w h st).
Proof.
  unfold grid_shaped.
  destruct (resize_fields Math_random w h st) as (-> & -> & -> & _).
  apply initPoints_coords.
Qed.

Lemma same_identity_coords (l l' : list Point) :
  Forall2 same_identity l l' -> map coords l' = map coords l.
Proof.
  induction 1 as [| p p' l l' (_ & _ & Hc & Hr) _ IH]; simpl.
  - reflexivity.
  - unfold coords at 1 3. now rewrite Hc, Hr, IH.
Qed.

Lemma update_grid_shaped (Math_random : nat -> R) (st : State) :
  grid_shaped st -> grid_shaped (update Math_random st).
Proof.
  unfold grid_shaped. intros Hst.
  rewrite (same_identity_coords (points st)).
  - destruct (update_fields Math_random st) as (_ & -> & -> & _). exact Hst.
  - apply update_points_Forall2. intros p n. apply update_point_same_identity.
Qed.

Lemma animate_grid_shaped (Math_random : nat -> R) (now : Z) (st : State) :
  grid_shaped st -> grid_shaped (fst (animate Math_random now st)).
Proof.
  intros Hst. rewrite animate_eq.
  destruct (Z.rem _ _ =? 0)%Z; simpl fst.
  - apply update_grid_shaped. exact Hst.
  - exact Hst.
Qed.

Lemma neighbor_at (st : State) (k n : Z) (p : Point) :
  grid_shaped st ->
  at_index (points st) k = Some p ->
  In n (neighbors (cols st) (rows st) (col p) (row p)) ->
  exists q, at_index (points st) n = Some q.
Proof.
  intros Hst Hp Hn.
  destruct (grid_point st Hst k p Hp) as (Hc & Hr & _).
  rewrite neighbors_eq in Hn by assumption.
  apply in_map_iff in Hn. destruct Hn as [[a b] [<- Hin]].
  apply filter_In in Hin. destruct Hin as [_ Hg].
  apply in_grid_iff in Hg. destruct Hg as [Ha Hb].
  destruct (grid_at st Hst a b Ha Hb) as [q (Hq & _)].
  now exists q.
Qed.

(** C7, as amended.  In a frame of a grid, the candidate edges of the point
    at column [i], row [j] lead exactly to those of right [(i+1, j)], bottom
    [(i, j+1)], bottom-right [(i+1, j+1)] and top-right [(i+1, j-1)] that are
    on the lattice; every candidate edge starts at a point of the lattice; no
    candidate edge occurs twice, and none occurs in both directions.  A
    candidate edge between the points [p] and [q] is stroked once, from [p]
    to [q], when they are less than [maxDist] apart, and not at all
    otherwise; the strokes of the frame are those of the candidate edges, in
    their order. *)
Theorem edges_once (st : State) :
  grid_shaped st ->
  let E := candidate_edges (cols st) (rows st) (points st) in
  (forall i j n, (0 <= i < cols st)%Z -> (0 <= j < rows st)%Z ->
     (In (idx (rows st) i j, n) E <->
      exists c, In c [(i + 1, j); (i, j + 1); (i + 1, j + 1); (i + 1, j - 1)]%Z /\
                (0 <= fst c < cols st)%Z /\ (0 <= snd c < rows st)%Z /\
                n = idx (rows st) (fst c) (snd c))) /\
  (forall k n, In (k, n) E ->
     exists i j, (0 <= i < cols st)%Z /\ (0 <= j < rows st)%Z /\
                 k = idx (rows st) i j) /\
  NoDup E /\
  (forall a b, In (a, b) E -> ~ In (b, a) E) /\
  filter is_stroke (draw st) = flat_map (edge_ops (points st)) E /\
  (forall e, (length (edge_ops (points st) e) <= 1)%nat) /\
  (forall k n, In (k, n) E ->
     exists p q,
       at_index (points st) k = Some p /\ at_index (points st) n = Some q /\
       edge_ops (points st) (k, n) =
       if Rlt_dec (distance p q) maxDist
       then [strokeLine (x p) (y p) (x q) (y q)
               ((1 - distance p q / maxDist) * 0.32)]
       else []).
Proof.
  intros Hst E.
  split; [| split; [| split; [| split; [| split; [| split]]]]].
  - intros i j n Hi Hj. unfold E. rewrite candidate_edges_In. split.
    + intros [p [Hp Hn]].
      destruct (grid_point st Hst _ p Hp) as (Hc & Hr & Hk).
      destruct (idx_injective (rows st) i j (col p) (row p) Hj Hr Hk) as [Ei Ej].
      rewrite <- Ei, <- Ej in Hn.
      rewrite neighbors_eq in Hn by assumption.
      apply in_map_iff in Hn. destruct Hn as [[a b] [<- Hin]].
      apply filter_In in Hin. destruct Hin as [Hfour Hg].
      apply in_grid_iff in Hg. exists (a, b). simpl. tauto.
    + intros [[a b] (Hfour & Ha & Hb & ->)]. simpl in Ha, Hb.
      destruct (grid_at st Hst i j Hi Hj) as [p (Hp & <- & <-)].
      exists p. split; [exact Hp |].
      rewrite neighbors_eq by assumption.
      apply in_map_iff. exists (a, b). split; [reflexivity |].
      apply filter_In. split; [exact Hfour | now apply in_grid_iff].
  - intros k n Hin. apply candidate_edges_In in Hin.
    destruct Hin as [p [Hp _]].
    destruct (grid_point st Hst k p Hp) as (Hc & Hr & Hk).
    now exists (col p), (row p).
  - now apply candidate_edges_NoDup.
  - intros a b Hab Hba.
    apply (candidate_edges_later st Hst) in Hab.
    apply (candidate_edges_later st Hst) in Hba. lia.
  - apply draw_strokes.
  - intros [k n]. unfold edge_ops. simpl.
    destruct (at_index (points st) k); [apply draw_edge_strokes | simpl; lia].
  - intros k n Hin. apply candidate_edges_In in Hin.
    destruct Hin as [p [Hp Hn]].
    destruct (neighbor_at st k n p Hst Hp Hn) as [q Hq].
    exists p, q. split; [exact Hp |]. split; [exact Hq |].
    unfold edge_ops. simpl fst. simpl snd. rewrite Hp.
    apply draw_edge_eq. exact Hq.
Qed.

Lemma edges_once_witness :
  grid_shaped tiny /\
  NoDup (candidate_edges (cols tiny) (rows tiny) (points tiny)) /\
  candidate_edges (cols tiny) (rows tiny) (points tiny)
  = [(0, 2); (0, 1); (0, 3); (1, 3); (1, 2); (2, 3)]%Z.
Proof.
  assert (Hst : grid_shaped tiny) by reflexivity.
  split; [exact Hst |]. split; [| reflexivity].
  apply (edges_once tiny Hst).
Defined.

(** C7, the claim as stated fails: in the grid of two columns and two rows at
    rest, the first point and its bottom-right neighbour are a candidate
    edge, considered once and from one end only, and the frame has no stroke
    for it: it is drawn not once but never. *)
Lemma diagonal_edge_not_drawn :
  In (0, 3)%Z (candidate_edges (cols tiny) (rows tiny) (points tiny)) /\
  ~ In (3, 0)%Z (candidate_edges (cols tiny) (rows tiny) (points tiny)) /\
  at_index (points tiny) 0 = Some origin_point /\
  at_index (points tiny) 3 = Some below_right_of_origin /\
  edge_ops (points tiny) (0, 3)%Z = [] /\
  (forall a x1 y1 x2 y2,
     In (strokeLine x1 y1 x2 y2 a) (draw tiny) ->
     ~ (x1 = x origin_point /\ y1 = y origin_point /\
        x2 = x below_right_of_origin /\ y2 = y below_right_of_origin)).
Proof.
  assert (HE : candidate_edges (cols tiny) (rows tiny) (points tiny)
               = [(0, 2); (0, 1); (0, 3); (1, 3); (1, 2); (2, 3)]%Z)
    by reflexivity.
  assert (Hfar : forall ps, at_index ps 3 = Some below_right_of_origin ->
                 draw_edge ps origin_point 3 = []).
  { intros ps Hq. apply (draw_edge_drawn ps origin_point _ 3 Hq).
    unfold origin_point, below_right_of_origin. simpl. lra. }
  split; [rewrite HE; simpl; tauto |].
  split.
  { rewrite HE. simpl. intros H.
    repeat (destruct H as [H | H]; [discriminate |]). exact H. }
  split; [reflexivity |]. split; [reflexivity |].
  split; [apply (Hfar (points tiny)); reflexivity |].
  intros a x1 y1 x2 y2 Hin (Hx1 & Hy1 & Hx2 & Hy2).
  assert (Hs : In (strokeLine x1 y1 x2 y2 a) (filter is_stroke (draw tiny))).
  { apply filter_In. split; [exact Hin | reflexivity]. }
  rewrite draw_strokes, HE in Hs.
  apply in_flat_map in Hs. destruct Hs as [e [He Hop]].
  assert (Hends : forall ps p n, In (strokeLine x1 y1 x2 y2 a) (draw_edge ps p n) ->
            exists q, at_index ps n = Some q /\
                      x1 = x p /\ y1 = y p /\ x2 = x q /\ y2 = y q).
  { intros ps p n H. unfold draw_edge in H.
    destruct (at_index ps n) as [q |]; [| destruct H].
    destruct (Rlt_dec _ _); [| destruct H].
    destruct H as [H | []]. injection H as <- <- <- <- _.
    exists q. repeat split; reflexivity. }
  simpl in He.
  destruct He as [<- | [<- | [<- | [<- | [<- | [<- | []]]]]]];
    unfold edge_ops in Hop; simpl fst in Hop; simpl snd in Hop.
  - change (at_index (points tiny) 0) with (Some origin_point) in Hop.
    destruct (Hends _ _ _ Hop) as [q (Hq & _ & _ & E2 & _)].
    injection Hq as <-. rewrite Hx2 in E2. simpl in E2. lra.
  - change (at_index (points tiny) 0) with (Some origin_point) in Hop.
    destruct (Hends _ _ _ Hop) as [q (Hq & _ & _ & E2 & _)].
    injection Hq as <-. rewrite Hx2 in E2. simpl in E2. lra.
  - change (at_index (points tiny) 0) with (Some origin_point) in Hop.
    cbv beta iota in Hop.
    rewrite (Hfar (points tiny) eq_refl) in Hop. destruct Hop.
  - change (at_index (points tiny) 1)
      with (Some {| x := 50; y := 100; ox := 50; oy := 100; vx := 0; vy := 0;
                    col := 0; row := 1 |}) in Hop.
    destruct (Hends _ _ _ Hop) as [q (_ & E1 & _)].
    rewrite Hx1 in E1. simpl in E1. lra.
  - change (at_index (points tiny) 1)
      with (Some {| x := 50; y := 100; ox := 50; oy := 100; vx := 0; vy := 0;
                    col := 0; row := 1 |}) in Hop.
    destruct (Hends _ _ _ Hop) as [q (_ & E1 & _)].
    rewrite Hx1 in E1. simpl in E1. lra.
  - change (at_index (points tiny) 2) with (Some right_of_origin) in Hop.
    destruct (Hends _ _ _ Hop) as [q (_ & E1 & _)].
    rewrite Hx1 in E1. simpl in E1. lra.
Qed.

(** * Further properties of the engine *)

(** ** Addressing *)

(** X1.  In a grid, [idx] and the lattice coordinates of the points are
    inverse to each other: the point at [idx(i, j)] has column [i] and row
    [j], that index is within the array, and the point at any index [k] of
    the array has [idx(col, row) = k], with [col = k / rows] and
    [row = k mod rows]. *)
Theorem idx_round_trip (st : State) :
  grid_shaped st ->
  (forall i j, (0 <= i < cols st)%Z -> (0 <= j < rows st)%Z ->
     (0 <= idx (rows st) i j < Z.of_nat (length (points st)))%Z /\
     exists p, at_index (points st) (idx (rows st) i j) = Some p /\
               col p = i /\ row p = j) /\
  (forall k p, at_index (points st) k = Some p ->
     idx (rows st) (col p) (row p) = k /\
     col p = (k / rows st)%Z /\ row p = (k mod rows st)%Z /\
     (0 <= col p < cols st)%Z /\ (0 <= row p < rows st)%Z).
Proof.
  intros Hst. split.
  - intros i j Hi Hj.
    destruct (grid_at st Hst i j Hi Hj) as [p (Hp & Hc & Hr)].
    split; [| now exists p].
    unfold at_index in Hp.
    destruct (Z.ltb_spec (idx (rows st) i j) 0) as [| Hk]; [discriminate |].
    assert (Hlt : (Z.to_nat (idx (rows st) i j) < length (points st))%nat).
    { apply nth_error_Some. rewrite Hp. discriminate. }
    lia.
  - intros k p Hp.
    destruct (grid_point st Hst k p Hp) as (Hc & Hr & Hk).
    split; [now rewrite Hk |].
    split; [| split; [| now split]].
    + apply (Z.div_unique k (rows st) (col p) (row p)); [now left |].
      rewrite Hk. unfold idx. ring.
    + apply (Z.mod_unique k (rows st) (col p) (row p)); [now left |].
      rewrite Hk. unfold idx. ring.
Qed.

Lemma idx_round_trip_witness :
  grid_shaped tiny /\
  exists p, at_index (points tiny) (idx (rows tiny) 1 0) = Some p /\
            col p = 1%Z /\ row p = 0%Z.
Proof.
  assert (Hst : grid_shaped tiny) by reflexivity.
  split; [exact Hst |].
  apply (idx_round_trip tiny Hst); simpl; lia.
Defined.

(** X2.  In a grid, every index the renderer puts in [neighbors] for a point
    of the array is an index of the array: the lookup [points[n]] never gives
    [undefined], and the point found is the one at the right, bottom,
    bottom-right or top-right place of the lattice. *)
Theorem neighbors_found (st : State) (k n : Z) (p : Point) :
  grid_shaped st ->
  at_index (points st) k = Some p ->
  In n (neighbors (cols st) (rows st) (col p) (row p)) ->
  exists q, at_index (points st) n = Some q /\
            In (coords q) (four (col p) (row p)) /\
            n = idx (rows st) (col q) (row q) /\ (k < n)%Z.
Proof.
  intros Hst Hp Hn.
  destruct (grid_point st Hst k p Hp) as (Hc & Hr & Hk).
  assert (Hlater : (k < n)%Z).
  { rewrite Hk. now apply (neighbors_later (cols st) (rows st)). }
  rewrite neighbors_eq in Hn by assumption.
  apply in_map_iff in Hn. destruct Hn as [[a b] [Hab Hin]].
  apply filter_In in Hin. destruct Hin as [Hfour Hg].
  apply in_grid_iff in Hg. destruct Hg as [Ha Hb]. simpl in Hab.
  destruct (grid_at st Hst a b Ha Hb) as [q (Hq & Hqc & Hqr)].
  exists q. rewrite Hab in Hq. split; [exact Hq |].
  unfold coords. rewrite Hqc, Hqr. split; [exact Hfour |].
  split; [now rewrite Hab | exact Hlater].
Qed.

Lemma neighbors_found_witness :
  grid_shaped tiny /\
  exists q, at_index (points tiny) 3 = Some q /\
            In (coords q) (four 0 0) /\
            3%Z = idx (rows tiny) (col q) (row q) /\ (0 < 3)%Z.
Proof.
  assert (Hst : grid_shaped tiny) by reflexivity.
  split; [exact Hst |].
  apply (neighbors_found tiny 0 3
           {| x := 0; y := 0; ox := 0; oy := 0; vx := 0; vy := 0;
              col := 0; row := 0 |} Hst).
  - reflexivity.
  - simpl. tauto.
Defined.

(** ** The layout of a frame *)

Lemma flat_map_nil {A B : Type} (g : A -> list B) (l : list A) :
  (forall a, g a = []) -> flat_map g l = [].
Proof.
  intros Hg. induction l as [| a l IH]; simpl.
  - reflexivity.
  - now rewrite Hg, IH.
Qed.

Lemma flat_map_singleton {A B : Type} (g : A -> list B) (h : A -> B) (l : list A) :
  (forall a, g a = [h a]) -> flat_map g l = map h l.
Proof.
  intros Hg. induction l as [| a l IH]; simpl.
  - reflexivity.
  - now rewrite Hg, IH.
Qed.

Lemma draw_edge_kinds (ps : list Point) (p : Point) (n : Z) :
  filter is_clear (draw_edge ps p n) = [] /\
  filter is_dot (draw_edge ps p n) = [] /\
  filter is_halo (draw_edge ps p n) = [].
Proof.
  unfold draw_edge. destruct (at_index ps n) as [q |]; [| now repeat split].
  destruct (Rlt_dec _ _); now repeat split.
Qed.

Lemma draw_point_kinds (st : State) (p : Point) :
  filter is_clear (draw_point st p) = [] /\
  filter is_dot (draw_point st p) = [fillDot (x p) (y p)] /\
  filter is_halo (draw_point st p) = [].
Proof.
  unfold draw_point. simpl filter. rewrite !filter_flat_map.
  rewrite !flat_map_nil; [now repeat split | | |];
    intros n; apply draw_edge_kinds.
Qed.

Lemma neighbors_length (cols rows i j : Z) :
  (length (neighbors cols rows i j) <= 4)%nat.
Proof.
  unfold neighbors.
  destruct (i + 1 <? cols)%Z, (j + 1 <? rows)%Z, (j - 1 >=? 0)%Z; simpl; lia.
Qed.

Lemma flat_map_length_le {A B : Type} (g : A -> list B) (c : nat) (l : list A) :
  (forall a, (length (g a) <= c)%nat) ->
  (length (flat_map g l) <= c * length l)%nat.
Proof.
  intros Hg. induction l as [| a l IH]; simpl.
  - lia.
  - rewrite length_app. specialize (Hg a). lia.
Qed.

Lemma draw_point_length (st : State) (p : Point) :
  (length (draw_point st p) <= 5)%nat.
Proof.
  unfold draw_point. simpl length.
  pose proof (flat_map_length_le (draw_edge (points st) p) 1
                (neighbors (cols st) (rows st) (col p) (row p))
                (fun n => proj2 (draw_edge_strokes (points st) p n))) as H1.
  pose proof (neighbors_length (cols st) (rows st) (col p) (row p)) as H2.
  lia.
Qed.

Lemma draw_halo (st : State) :
  filter is_halo (draw st) =
  match mouse_x (mouse st) with
  | Some mx => [fillHalo mx (toNumber (mouse_y (mouse st)))]
  | None => []
  end.
Proof.
  unfold draw. simpl filter. rewrite filter_app, filter_flat_map.
  rewrite flat_map_nil by (intros p; apply draw_point_kinds).
  now destruct (mouse_x (mouse st)).
Qed.

Lemma Forall2_map_right {A B : Type} (P : A -> B -> Prop) (f : A -> B) (l : list A) :
  (forall a, P a (f a)) -> Forall2 P l (map f l).
Proof.
  intros HP. induction l as [| a l IH]; simpl; constructor; auto.
Qed.

Lemma draw_edge_all_strokes (ps : list Point) (p : Point) (ns : list Z) :
  Forall (fun op => is_stroke op = true) (flat_map (draw_edge ps p) ns).
Proof.
  apply Forall_forall. intros op Hin.
  apply in_flat_map in Hin. destruct Hin as [n [_ Hop]].
  destruct (draw_edge_strokes ps p n) as [Hf _].
  rewrite <- Hf in Hop. apply filter_In in Hop. apply Hop.
Qed.

(** X3.  A frame is: one [clearRect] of the whole canvas first; then, point
    by point in the order of the array, one segment for each point, made of
    the dot of the point followed by the strokes of its edges: for each
    index in [neighbors], one stroke from the point to the point at that
    index when they are less than [maxDist] apart, so at most four strokes
    and five operations for a point; and last, when the pointer is present
    and only then, one halo at the pointer. *)
Theorem draw_layout (st : State) :
  let halo :=
    match mouse_x (mouse st) with
    | Some mx => [fillHalo mx (toNumber (mouse_y (mouse st)))]
    | None => []
    end in
  exists segments,
    draw st = clearRect (width st) (height st) :: concat segments ++ halo /\
    Forall2
      (fun p segment =>
         exists strokes,
           segment = fillDot (x p) (y p) :: strokes /\
           strokes =
             flat_map
               (fun n =>
                  match at_index (points st) n with
                  | Some q =>
                      if Rlt_dec (distance p q) maxDist
                      then [strokeLine (x p) (y p) (x q) (y q)
                              ((1 - distance p q / maxDist) * 0.32)]
                      else []
                  | None => []
                  end)
               (neighbors (cols st) (rows st) (col p) (row p)) /\
           Forall (fun op => is_stroke op = true) strokes /\
           (length strokes <= 4)%nat)
      (points st) segments /\
    filter is_clear (concat segments) = [] /\
    filter is_halo (concat segments) = [] /\
    filter is_dot (concat segments) =
      map (fun p => fillDot (x p) (y p)) (points st) /\
    filter is_stroke (concat segments) =
      flat_map (edge_ops (points st))
               (candidate_edges (cols st) (rows st) (points st)) /\
    (length (concat segments) <= 5 * length (points st))%nat.
Proof.
  intros halo. exists (map (draw_point st) (points st)).
  rewrite <- flat_map_concat_map.
  split; [reflexivity |].
  split.
  { apply Forall2_map_right. intros p.
    exists (flat_map (draw_edge (points st) p)
              (neighbors (cols st) (rows st) (col p) (row p))).
    split; [reflexivity |]. split; [reflexivity |].
    split; [apply draw_edge_all_strokes |].
    pose proof (flat_map_length_le (draw_edge (points st) p) 1
                  (neighbors (cols st) (rows st) (col p) (row p))
                  (fun n => proj2 (draw_edge_strokes (points st) p n))) as H1.
    pose proof (neighbors_length (cols st) (rows st) (col p) (row p)) as H2.
    lia. }
  split.
  { rewrite filter_flat_map. apply flat_map_nil.
    intros p. apply draw_point_kinds. }
  split.
  { rewrite filter_flat_map. apply flat_map_nil.
    intros p. apply draw_point_kinds. }
  split.
  { rewrite filter_flat_map. apply flat_map_singleton.
    intros p. apply draw_point_kinds. }
  split.
  { pose proof (draw_strokes st) as Hs. unfold draw in Hs.
    simpl filter in Hs. rewrite filter_app in Hs.
    replace (filter is_stroke
               match mouse_x (mouse st) with
               | Some mx => [fillHalo mx (toNumber (mouse_y (mouse st)))]
               | None => []
               end) with (@nil CanvasOp) in Hs
      by (now destruct (mouse_x (mouse st))).
    now rewrite app_nil_r in Hs. }
  apply flat_map_length_le. intros p. apply draw_point_length.
Qed.

(** ** The listeners together *)

Lemma lattice_length (cols rows : Z) :
  length (lattice cols rows) = (Z.to_nat cols * Z.to_nat rows)%nat.
Proof.
  unfold lattice. rewrite flat_map_concat_map.
  rewrite (concat_length_uniform (Z.to_nat rows)).
  - now rewrite length_map, range_length.
  - apply Forall_forall. intros l Hl. apply in_map_iff in Hl.
    destruct Hl as [i [<- _]]. now rewrite length_map, range_length.
Qed.

Lemma handle_grid_shaped (Math_random : nat -> R) (e : Event) (st : State) :
  grid_shaped st -> grid_shaped (handle Math_random e st).
Proof.
  intros Hst. destruct e; simpl.
  - apply resize_grid_shaped.
  - exact Hst.
  - exact Hst.
  - exact Hst.
  - now apply animate_grid_shaped.
Qed.

Lemma run_grid_shaped (Math_random : nat -> R) (es : list Event) (st : State) :
  grid_shaped st -> grid_shaped (run Math_random es st).
Proof.
  revert st. induction es as [| e es IH]; intros st Hst; simpl.
  - exact Hst.
  - apply IH. now apply handle_grid_shaped.
Qed.

Lemma start_grid_shaped (Math_random : nat -> R) (w h : R) (now : Z) :
  grid_shaped (fst (start Math_random w h now)).
Proof. apply animate_grid_shaped, resize_grid_shaped. Qed.

(** X4.  Whatever events follow the start of the engine, in whatever order,
    the points are those of a [cols] by [rows] lattice in the order of
    [idx]: there are [cols * rows] of them and no two share their
    [(col, row)]. *)
Theorem grid_kept (Math_random : nat -> R) (w h : R) (now : Z) (es : list Event) :
  let st := run Math_random es (fst (start Math_random w h now)) in
  map coords (points st) = lattice (cols st) (rows st) /\
  length (points st) = (Z.to_nat (cols st) * Z.to_nat (rows st))%nat /\
  NoDup (map coords (points st)).
Proof.
  intros st.
  assert (Hst : grid_shaped st).
  { apply run_grid_shaped, start_grid_shaped. }
  split; [exact Hst |]. split.
  - rewrite <- (length_map coords), Hst. apply lattice_length.
  - rewrite Hst. apply lattice_NoDup.
Qed.

Lemma handle_frameCount (Math_random : nat -> R) (e : Event) (st : State) :
  frameCount (handle Math_random e st) =
  (frameCount st + if is_frame e then 1 else 0)%Z.
Proof.
  destruct e; simpl.
  - destruct (resize_fields Math_random innerWidth innerHeight st)
      as (_ & _ & _ & -> & _). lia.
  - lia.
  - lia.
  - lia.
  - destruct (animate_state Math_random now st) as (-> & _). reflexivity.
Qed.

(** X5.  The frame counter counts the runs of [animate] and nothing else:
    after the start and any events it is one more than the number of
    animation frames among them; no resize, pointer or scroll event changes
    it, and it is never reset. *)
Theorem frameCount_counts (Math_random : nat -> R) (w h : R) (now : Z)
    (es : list Event) (st : State) :
  frameCount (run Math_random es st) =
    (frameCount st + Z.of_nat (length (filter is_frame es)))%Z /\
  frameCount (run Math_random es (fst (start Math_random w h now))) =
    (1 + Z.of_nat (length (filter is_frame es)))%Z.
Proof.
  assert (Hgen : forall es' st',
             frameCount (run Math_random es' st') =
             (frameCount st' + Z.of_nat (length (filter is_frame es')))%Z).
  { induction es' as [| e es' IH]; intros st'; simpl.
    - lia.
    - rewrite IH, handle_frameCount. destruct (is_frame e); simpl length; lia. }
  split; [apply Hgen |].
  rewrite Hgen. unfold start.
  destruct (animate_state Math_random now (resize Math_random w h initial))
    as (-> & _).
  destruct (resize_fields Math_random w h initial) as (_ & _ & _ & -> & _).
  reflexivity.
Qed.

Lemma animate_mouse (Math_random : nat -> R) (now : Z) (st : State) :
  mouse (fst (animate Math_random now st)) = mouse st.
Proof.
  rewrite animate_eq. destruct (Z.rem _ _ =? 0)%Z; simpl fst.
  - now destruct (update_fields Math_random (count_frame st))
      as (_ & _ & _ & -> & _).
  - reflexivity.
Qed.

Lemma run_mouse (Math_random : nat -> R) (es : list Event) (st : State) :
  Forall (fun e => pointer_event e = false) es ->
  mouse (run Math_random es st) = mouse st.
Proof.
  revert st. induction es as [| e es IH]; intros st Hes; simpl.
  - reflexivity.
  - inversion Hes as [| ? ? He Hes']; subst. rewrite IH by exact Hes'.
    destruct e; simpl in *; try discriminate.
    + now destruct (resize_fields Math_random innerWidth innerHeight st)
        as (_ & _ & _ & _ & _ & ->).
    + reflexivity.
    + apply animate_mouse.
Qed.

(** X6.  The pointer is what the last pointer event made it: frames, scrolls
    and resizes do not change it.  So after a [mouseout] or [mouseleave],
    until the next [mousemove], no frame has a halo and no tick displaces a
    point by repulsion; and after a [mousemove], until the next pointer event,
    every frame has the halo at the client position minus the origin of the
    canvas. *)
Theorem pointer_tracking (Math_random : nat -> R) (es : list Event) (st : State) :
  Forall (fun e => pointer_event e = false) es ->
  mouse (run Math_random es st) = mouse st /\
  filter is_halo (draw (run Math_random es (onLeave st))) = [] /\
  (forall p n,
     repulsion Math_random (mouse (run Math_random es (onLeave st))) p n = (0, 0)) /\
  (forall cx cy l t,
     filter is_halo (draw (run Math_random es (onMove cx cy l t st)))
     = [fillHalo (cx - l) (cy - t)]).
Proof.
  intros Hes. split; [now apply run_mouse |]. split; [| split].
  - rewrite draw_halo, run_mouse by exact Hes. reflexivity.
  - intros p n. apply repulsion_absent. now rewrite run_mouse.
  - intros cx cy l t. rewrite draw_halo, run_mouse by exact Hes. reflexivity.
Qed.

Lemma pointer_tracking_witness :
  Forall (fun e => pointer_event e = false)
    [Frame 1016; Scroll 1020; Resize 100 100; Frame 1032] /\
  filter is_halo
    (draw (run still [Frame 1016; Scroll 1020; Resize 100 100; Frame 1032]
             (onMove 40 50 10 20 tiny)))
  = [fillHalo (40 - 10) (50 - 20)].
Proof.
  assert (Hes : Forall (fun e => pointer_event e = false)
                  [Frame 1016; Scroll 1020; Resize 100 100; Frame 1032]).
  { repeat constructor. }
  split; [exact Hes |].
  apply (pointer_tracking still _ tiny Hes).
Defined.

(** ** Throttle and random numbers *)


Lemma run_frames_state (Math_random : nat -> R) (l : list Z) (st : State) :
  frameCount (run Math_random (map Frame l) st) =
    (frameCount st + Z.of_nat (length l))%Z /\
  lastScrollTime (run Math_random (map Frame l) st) = lastScrollTime st.
Proof.
  revert st. induction l as [| now l IH]; intros st; simpl.
  - split; [lia | reflexivity].
  - destruct (IH (fst (animate Math_random now st))) as [-> ->].
    destruct (animate_state Math_random now st) as (-> & -> & _).
    split; [lia | reflexivity].
Qed.

(** The [i]-th of the runs of [animate] starts from the state the frames
    before it have left. *)
Lemma frames_nth (Math_random : nat -> R) (times : list Z) (st : State)
    (i : nat) (now : Z) :
  nth_error times i = Some now ->
  nth_error (frames Math_random times st) i =
  Some (animate Math_random now
          (run Math_random (map Frame (firstn i times)) st)).
Proof.
  revert st i. induction times as [| t later IH]; intros st i Hi.
  - destruct i; discriminate.
  - destruct i as [| i]; simpl in Hi.
    + injection Hi as ->. reflexivity.
    + simpl. now apply IH.
Qed.


Lemma run_away_from_scroll (Math_random : nat -> R) (times : list Z) (st : State)
    (i : nat) (now : Z) :
  Forall (fun t => (160 <= t - lastScrollTime st)%Z) times ->
  nth_error times i = Some now ->
  let s := run Math_random (map Frame (firstn i times)) st in
  animate Math_random now s =
  (update Math_random (count_frame s),
   [Paint (draw (update Math_random (count_frame s))); requestAnimationFrame]).
Proof.
  intros Hall Hi s. rewrite animate_eq.
  destruct (run_frames_state Math_random (firstn i times) st) as [_ Hls].
  fold s in Hls. rewrite Hls.
  assert (Hnow : (160 <= now - lastScrollTime st)%Z).
  { rewrite Forall_forall in Hall. apply Hall. eapply nth_error_In. exact Hi. }
  destruct (Z.ltb_spec (now - lastScrollTime st) 160); [lia |].
  simpl Z.add. rewrite Z.rem_1_r. reflexivity.
Qed.



Lemma update_drawn (Math_random : nat -> R) (st : State) :
  drawn (update Math_random st) = (drawn st + 2 * length (points st))%nat.
Proof.
  unfold update.
  pose proof (forM_drawn (update_point Math_random (mouse st)) 2%nat
                (fun p n => update_point_drawn Math_random (mouse st) p n)
                (points st) (drawn st)) as Hd.
  destruct (forM (points st) _ (drawn st)) as [ps n]. simpl in *. exact Hd.
Qed.

Lemma resize_drawn (Math_random : nat -> R) (w h : R) (st : State) :
  drawn (resize Math_random w h st) =
  (drawn st + 4 * length (points (resize Math_random w h st)))%nat.
Proof.
  unfold resize.
  pose proof (initPoints_eq Math_random (Math_ceil (w / spacing) + 1)
                (Math_ceil (h / spacing) + 1) (drawn st)) as He.
  pose proof (initPoints_length Math_random (Math_ceil (w / spacing) + 1)
                (Math_ceil (h / spacing) + 1) (drawn st)) as Hl.
  destruct (initPoints Math_random _ _ (drawn st)) as [ps n].
  simpl in *. injection He as _ ->. rewrite Hl. lia.
Qed.

Lemma animate_drawn (Math_random : nat -> R) (now : Z) (st : State) :
  drawn (fst (animate Math_random now st)) =
    (drawn st + if performs_work (snd (animate Math_random now st))
                then 2 * length (points st) else 0)%nat /\
  length (points (fst (animate Math_random now st))) = length (points st).
Proof.
  rewrite animate_eq.
  destruct (Z.rem _ _ =? 0)%Z; simpl fst; simpl snd.
  - rewrite update_drawn. simpl. split; [reflexivity |].
    destruct (update_fields Math_random (count_frame st)) as [-> _].
    apply forM_length.
  - simpl. split; [lia | reflexivity].
Qed.

(** X8.  [Math.random] is called four times for each point a resize creates
    and twice for each point a tick moves; a run of [animate] that skips the
    work calls it not at all, and no run of [animate] changes the number of
    points. *)
Theorem random_calls (Math_random : nat -> R) (w h : R) (now : Z) (st : State) :
  let st1 := resize Math_random w h st in
  let r := animate Math_random now st in
  drawn st1 = (drawn st + 4 * length (points st1))%nat /\
  drawn (update Math_random st) = (drawn st + 2 * length (points st))%nat /\
  drawn (fst r) =
    (drawn st + if performs_work (snd r) then 2 * length (points st) else 0)%nat /\
  length (points (fst r)) = length (points st).
Proof.
  intros st1 r.
  split; [apply resize_drawn |]. split; [apply update_drawn |].
  split; apply animate_drawn.
Qed.

(** X9.  The engine starts by painting: whenever the clock reads at least
    160 ms, the first run of [animate], right after the first [resize], does
    the update and the draw whatever the viewport; the frame it paints has
    one dot for each of the [cols * rows] points, the frame counter is then 1
    and [Math.random] has been called six times per point. *)
Theorem first_frame_painted (Math_random : nat -> R) (w h : R) (now : Z) :
  (160 <= now)%Z ->
  let r := start Math_random w h now in
  performs_work (snd r) = true /\
  snd r = [Paint (draw (fst r)); requestAnimationFrame] /\
  length (filter is_dot (draw (fst r))) =
    (Z.to_nat (cols (fst r)) * Z.to_nat (rows (fst r)))%nat /\
  frameCount (fst r) = 1%Z /\
  drawn (fst r) = (6 * length (points (fst r)))%nat.
Proof.
  intros Hnow r.
  destruct (resize_fields Math_random w h initial)
    as (_ & _ & _ & Hfc & Hls & _).
  assert (Hwork : performs_work (snd r) = true).
  { unfold r, start. rewrite animate_work, Hls. simpl lastScrollTime.
    destruct (Z.ltb_spec (now - 0) 160); [lia | reflexivity]. }
  assert (Hshape : grid_shaped (fst r)) by apply start_grid_shaped.
  split; [exact Hwork |]. split; [| split; [| split]].
  - unfold r, start in *. rewrite animate_eq in *.
    destruct (Z.rem _ _ =? 0)%Z; [reflexivity | discriminate].
  - unfold draw. simpl filter. rewrite filter_app, filter_flat_map.
    rewrite (flat_map_singleton _ (fun p => fillDot (x p) (y p)))
      by (intros p; apply draw_point_kinds).
    replace (filter is_dot
               match mouse_x (mouse (fst r)) with
               | Some mx => [fillHalo mx (toNumber (mouse_y (mouse (fst r))))]
               | None => []
               end) with (@nil CanvasOp)
      by (now destruct (mouse_x (mouse (fst r)))).
    rewrite app_nil_r, length_map.
    rewrite <- (length_map coords), Hshape. apply lattice_length.
  - unfold r, start.
    destruct (animate_state Math_random now (resize Math_random w h initial))
      as (-> & _).
    rewrite Hfc. reflexivity.
  - destruct (animate_drawn Math_random now (resize Math_random w h initial))
      as [Hd Hl].
    unfold r, start in *. rewrite Hd, Hl, Hwork, resize_drawn. simpl drawn. lia.
Qed.

Lemma first_frame_painted_witness :
  (160 <= 1700000000000)%Z /\
  performs_work (snd (start still 800 600 1700000000000)) = true /\
  frameCount (fst (start still 800 600 1700000000000)) = 1%Z.
Proof.
  assert (Hnow : (160 <= 1700000000000)%Z) by lia.
  split; [exact Hnow |].
  pose proof (first_frame_painted still 800 600 1700000000000 Hnow) as H.
  cbv zeta in H. split; apply H.
Defined.

(** ** Where the generated points lie *)

Lemma forM_In {A B : Type} (f : A -> Rand B) (l : list A) (n : nat) (b : B) :
  In b (fst (forM l f n)) -> exists a m, In a l /\ b = fst (f a m).
Proof.
  revert n. induction l as [| a l IH]; intros n.
  - intros [].
  - rewrite forM_cons. simpl. intros [<- | Hin].
    + exists a, n. split; [now left | reflexivity].
    + destruct (IH _ Hin) as [a' [m [Ha' Hb]]].
      exists a', m. split; [now right | exact Hb].
Qed.

Lemma initPoints_In (Math_random : nat -> R) (cols rows : Z) (n : nat) (p : Point) :
  In p (fst (initPoints Math_random cols rows n)) ->
  exists i j k, (0 <= i < cols)%Z /\ (0 <= j < rows)%Z /\
                p = fst (newPoint Math_random i j k).
Proof.
  rewrite initPoints_eq. simpl fst. intros Hin.
  apply in_concat in Hin. destruct Hin as [column [Hcol Hp]].
  apply forM_In in Hcol. destruct Hcol as [i [m [Hi ->]]].
  apply forM_In in Hp. destruct Hp as [j [k [Hj ->]]].
  exists i, j, k. now rewrite <- !range_In.
Qed.

(** X10.  The grid a resize generates covers the viewport and little more:
    every point starts at its rest position, within
    [-6 <= x < w + 156] and [-6 <= y < h + 106]; the points of the last
    column have [x >= w - 6] and those of the last row [y >= h - 6]; and no
    initial velocity component exceeds 0.02 in absolute value. *)
Theorem generated_box (Math_random : nat -> R) (w h : R) (st : State) :
  (forall k, 0 <= Math_random k < 1) -> 0 <= w -> 0 <= h ->
  let st' := resize Math_random w h st in
  Forall
    (fun p =>
       x p = ox p /\ y p = oy p /\
       -6 <= x p < w + 156 /\ -6 <= y p < h + 106 /\
       (col p = (cols st' - 1)%Z -> w - 6 <= x p) /\
       (row p = (rows st' - 1)%Z -> h - 6 <= y p) /\
       Rabs (vx p) <= 0.02 /\ Rabs (vy p) <= 0.02)
    (points st').
Proof.
  intros Hrange Hw Hh st'. apply Forall_forall. intros p Hp.
  destruct (resize_fields Math_random w h st) as (Hc & Hr & Hps & _).
  fold st' in Hc, Hr, Hps. rewrite Hps in Hp.
  apply initPoints_In in Hp. destruct Hp as (i & j & k & Hi & Hj & ->).
  rewrite <- Hc in Hi. rewrite <- Hr in Hj.
  pose proof (Math_ceil_spacing w) as Hcw. rewrite <- Hc in Hcw.
  pose proof (Math_ceil_spacing h) as Hrh. rewrite <- Hr in Hrh.
  assert (Hi0 : 0 <= IZR i) by (apply IZR_le; lia).
  assert (Hi1 : IZR i <= IZR (cols st') - 1).
  { rewrite <- minus_IZR. apply IZR_le. lia. }
  assert (Hj0 : 0 <= IZR j) by (apply IZR_le; lia).
  assert (Hj1 : IZR j <= IZR (rows st') - 1).
  { rewrite <- minus_IZR. apply IZR_le. lia. }
  rewrite newPoint_eq. cbv zeta. simpl.
  pose proof (Hrange k) as H0. pose proof (Hrange (k + 1)%nat) as H1.
  pose proof (Hrange (k + 2)%nat) as H2. pose proof (Hrange (k + 3)%nat) as H3.
  unfold spacing in *.
  assert (Hs : 0 <= (if (Z.rem j 2 =? 0)%Z then 0 else 100 / 2) <= 50).
  { destruct (Z.rem j 2 =? 0)%Z; lra. }
  split; [reflexivity |]. split; [reflexivity |].
  split; [lra |]. split; [lra |].
  split.
  { intros ->. rewrite minus_IZR. lra. }
  split.
  { intros ->. rewrite minus_IZR. lra. }
  split; apply Rabs_le; lra.
Qed.

Lemma generated_box_witness :
  (forall k, 0 <= still k < 1) /\ 0 <= 800 /\ 0 <= 600 /\
  Forall (fun p => -6 <= x p < 800 + 156) (points (resize still 800 600 initial)).
Proof.
  assert (Hs : forall k, 0 <= still k < 1) by (intros k; unfold still; lra).
  assert (H8 : 0 <= 800) by lra.
  assert (H6 : 0 <= 600) by lra.
  split; [exact Hs |]. split; [exact H8 |]. split; [exact H6 |].
  pose proof (generated_box still 800 600 initial Hs H8 H6) as H.
  cbv zeta in H. apply Forall_forall. intros p Hp.
  rewrite Forall_forall in H. apply (H p Hp).
Defined.

(** ** Which edges the unjittered lattice shows *)

(** X11.  With every point where the lattice puts it (no jitter, no motion),
    the edge to the right neighbour is drawn, 100 units long, with opacity
    [(1 - 100 / 180) * 0.32]; the edge to the bottom neighbour is drawn; and
    the edges to the bottom-right and top-right neighbours are drawn from the
    points of odd rows only: from an even row those two neighbours are
    [sqrt 32500], more than [maxDist], away. *)
Theorem lattice_edges (ps : list Point) (p q : Point) (n : Z) :
  at_index ps n = Some q -> at_lattice p -> at_lattice q ->
  (coords q = (col p + 1, row p)%Z ->
     draw_edge ps p n =
     [strokeLine (x p) (y p) (x q) (y q) ((1 - 100 / 180) * 0.32)]) /\
  (coords q = (col p, row p + 1)%Z -> draw_edge ps p n <> []) /\
  (coords q = (col p + 1, row p + 1)%Z \/ coords q = (col p + 1, row p - 1)%Z ->
     (draw_edge ps p n = [] <-> Z.odd (row p) = false)).
Proof.
  intros Hq [Hpx Hpy] [Hqx Hqy].
  pose proof (draw_edge_drawn ps p q n Hq) as Hdrawn.
  unfold spacing in *.
  split; [| split].
  - intros Hc. injection Hc as Hcol Hrow.
    rewrite Hcol, Hrow, plus_IZR in Hqx. rewrite Hrow in Hqy.
    rewrite (draw_edge_eq ps p q n Hq).
    assert (Hd : distance p q = 100).
    { unfold distance. rewrite Hpx, Hpy, Hqx, Hqy.
      replace (_ + _) with (100 * 100) by (destruct (Z.odd (row p)); lra).
      apply sqrt_square. lra. }
    rewrite Hd. unfold maxDist.
    destruct (Rlt_dec 100 180); [reflexivity | lra].
  - intros Hc. injection Hc as Hcol Hrow.
    rewrite Hcol in Hqx. rewrite Hrow, plus_IZR in Hqy.
    rewrite Hrow, Z.add_1_r, Z.odd_succ, <- Z.negb_odd in Hqx.
    rewrite Hdrawn, Hpx, Hpy, Hqx, Hqy.
    destruct (Z.odd (row p)); simpl; lra.
  - intros [Hc | Hc]; injection Hc as Hcol Hrow.
    + rewrite Hcol, plus_IZR in Hqx. rewrite Hrow, plus_IZR in Hqy.
      rewrite Hrow, Z.add_1_r, Z.odd_succ, <- Z.negb_odd in Hqx.
      rewrite Hdrawn, Hpx, Hpy, Hqx, Hqy.
      destruct (Z.odd (row p)); simpl; split; intros H;
        try reflexivity; try discriminate; lra.
    + rewrite Hcol, plus_IZR in Hqx. rewrite Hrow, minus_IZR in Hqy.
      rewrite Hrow, Z.sub_1_r, Z.odd_pred, <- Z.negb_odd in Hqx.
      rewrite Hdrawn, Hpx, Hpy, Hqx, Hqy.
      destruct (Z.odd (row p)); simpl; split; intros H;
        try reflexivity; try discriminate; lra.
Qed.

Lemma lattice_edges_witness :
  at_index (points tiny) 2 = Some right_of_origin /\
  at_lattice origin_point /\ at_lattice right_of_origin /\
  draw_edge (points tiny) origin_point 2 =
    [strokeLine (x origin_point) (y origin_point)
       (x right_of_origin) (y right_of_origin) ((1 - 100 / 180) * 0.32)].
Proof.
  assert (Hq : at_index (points tiny) 2 = Some right_of_origin) by reflexivity.
  assert (Hp : at_lattice origin_point).
  { unfold at_lattice, origin_point, spacing. simpl. split; lra. }
  assert (Hq' : at_lattice right_of_origin).
  { unfold at_lattice, right_of_origin, spacing. simpl. split; lra. }
  split; [exact Hq |]. split; [exact Hp |]. split; [exact Hq' |].
  apply (lattice_edges (points tiny) origin_point right_of_origin 2 Hq Hp Hq').
  reflexivity.
Defined.

(** ** Repulsion and rest *)

(** X12.  The repulsion pushes a point straight away from the pointer: when
    the pointer is at a distance [d] from the integrated position, with
    [0 < d < maxDist], the distance after the tick is [d + force * 0.9]; it
    is larger than [d] and still below [maxDist]. *)
Theorem repulsion_pushes_away (Math_random : nat -> R) (m : Mouse) (p : Point)
    (n : nat) (mx : R) :
  mouse_x m = Some mx ->
  let my := toNumber (mouse_y m) in
  let d := sqrt ((x p + vx p - mx) * (x p + vx p - mx)
                 + (y p + vy p - my) * (y p + vy p - my)) in
  let p' := fst (update_point Math_random m p n) in
  0 < d -> d < maxDist ->
  sqrt ((x p' - mx) * (x p' - mx) + (y p' - my) * (y p' - my))
    = d + push d * 0.9 /\
  d < d + push d * 0.9 < maxDist.
Proof.
  intros Hm my d p' Hpos Hnear.
  pose proof (push_range d Hpos Hnear) as Hpush.
  set (dx := x p + vx p - mx) in *. set (dy := y p + vy p - my) in *.
  assert (Hreach :
            reach m (jitter (Math_random n) (Math_random (S n))
                       (restore (integrate p))) = d).
  { unfold reach. rewrite Hm. simpl. fold my. fold dx. fold dy. fold d.
    unfold or_one. destruct (Req_dec_T d 0); [lra | reflexivity]. }
  assert (Hx : x p' - mx = dx * (1 + push d * 0.9 / d) /\
               y p' - my = dy * (1 + push d * 0.9 / d)).
  { unfold p'. rewrite update_point_eq. simpl fst. unfold repel.
    rewrite Hm, Hreach.
    destruct (Rlt_dec d maxDist); [| contradiction].
    simpl. fold my. unfold dx, dy. split; field; lra. }
  destruct Hx as [-> ->].
  assert (Hdd : d * d = dx * dx + dy * dy).
  { apply sqrt_sqrt. pose proof (Rle_0_sqr dx) as Ha.
    pose proof (Rle_0_sqr dy) as Hb. unfold Rsqr in Ha, Hb. lra. }
  split.
  - replace (dx * (1 + push d * 0.9 / d) * (dx * (1 + push d * 0.9 / d))
             + dy * (1 + push d * 0.9 / d) * (dy * (1 + push d * 0.9 / d)))
      with ((dx * dx + dy * dy)
            * ((1 + push d * 0.9 / d) * (1 + push d * 0.9 / d))) by ring.
    rewrite <- Hdd.
    replace (d * d * ((1 + push d * 0.9 / d) * (1 + push d * 0.9 / d)))
      with ((d + push d * 0.9) * (d + push d * 0.9)) by (field; lra).
    apply sqrt_square. lra.
  - split; [lra |]. unfold push, maxDist in *.
    replace ((180 - d) / 180) with (1 - d / 180) by (field; lra). lra.
Qed.

Lemma repulsion_pushes_away_witness :
  mouse_x {| mouse_x := Some 147; mouse_y := Some 296 |} = Some 147 /\
  0 < sqrt ((150 + 0 - 147) * (150 + 0 - 147) + (300 + 0 - 296) * (300 + 0 - 296)) /\
  sqrt ((150 + 0 - 147) * (150 + 0 - 147) + (300 + 0 - 296) * (300 + 0 - 296))
    < maxDist /\
  sqrt ((150 + 0 - 147) * (150 + 0 - 147) + (300 + 0 - 296) * (300 + 0 - 296))
    < sqrt ((150 + 0 - 147) * (150 + 0 - 147) + (300 + 0 - 296) * (300 + 0 - 296))
      + push (sqrt ((150 + 0 - 147) * (150 + 0 - 147)
                    + (300 + 0 - 296) * (300 + 0 - 296))) * 0.9.
Proof.
  assert (Hd : sqrt ((150 + 0 - 147) * (150 + 0 - 147)
                     + (300 + 0 - 296) * (300 + 0 - 296)) = 5).
  { replace ((150 + 0 - 147) * (150 + 0 - 147) + (300 + 0 - 296) * (300 + 0 - 296))
      with (5 * 5) by lra.
    apply sqrt_square. lra. }
  assert (Hm : mouse_x {| mouse_x := Some 147; mouse_y := Some 296 |} = Some 147)
    by reflexivity.
  assert (Hpos : 0 < sqrt ((150 + 0 - 147) * (150 + 0 - 147)
                           + (300 + 0 - 296) * (300 + 0 - 296)))
    by (rewrite Hd; lra).
  assert (Hnear : sqrt ((150 + 0 - 147) * (150 + 0 - 147)
                        + (300 + 0 - 296) * (300 + 0 - 296)) < maxDist)
    by (rewrite Hd; unfold maxDist; lra).
  split; [exact Hm |]. split; [exact Hpos |]. split; [exact Hnear |].
  apply (repulsion_pushes_away still {| mouse_x := Some 147; mouse_y := Some 296 |}
           resting_point 0 147 Hm Hpos Hnear).
Defined.

(** X13.  With the pointer absent and every jitter zero, a tick leaves a
    point as it is exactly when the point is at its rest position with no
    velocity: that is the only equilibrium. *)
Theorem rest_is_the_equilibrium (m : Mouse) (p : Point) (n : nat) :
  mouse_x m = None ->
  (fst (update_point still m p n) = p <->
   x p = ox p /\ y p = oy p /\ vx p = 0 /\ vy p = 0).
Proof.
  intros Hm. rewrite update_point_still by exact Hm. split.
  - intros Heq.
    pose proof (f_equal x Heq) as Hx. pose proof (f_equal y Heq) as Hy.
    pose proof (f_equal vx Heq) as Hvx. pose proof (f_equal vy Heq) as Hvy.
    simpl in Hx, Hy, Hvx, Hvy. repeat split; lra.
  - intros (Hx & Hy & Hvx & Hvy). destruct p as [px py pox poy pvx pvy pc pr].
    simpl in *. subst. f_equal; lra.
Qed.

Lemma rest_is_the_equilibrium_witness :
  mouse_x {| mouse_x := None; mouse_y := None |} = None /\
  fst (update_point still {| mouse_x := None; mouse_y := None |} resting_point 0%nat)
  = resting_point.
Proof.
  split; [reflexivity |].
  apply (rest_is_the_equilibrium {| mouse_x := None; mouse_y := None |}
           resting_point 0 eq_refl).
  unfold resting_point. simpl. repeat split; reflexivity.
Defined.

(** * The mobile menu *)

Lemma remove_idempotent (token : String.string) (l : list String.string) :
  classList_remove token (classList_remove token l) = classList_remove token l.
Proof.
  unfold classList_remove. induction l as [| c l IH]; simpl.
  - reflexivity.
  - destruct (String.eqb token c) eqn:E; simpl.
    + exact IH.
    + rewrite E. simpl. now rewrite IH.
Qed.

Lemma remove_appended (token : String.string) (l : list String.string) :
  classList_remove token (l ++ [token]) = classList_remove token l.
Proof.
  unfold classList_remove. rewrite filter_app. simpl.
  rewrite String.eqb_refl. simpl. apply app_nil_r.
Qed.

Lemma remove_absent (token : String.string) (l : list String.string) :
  classList_contains token l = false -> classList_remove token l = l.
Proof.
  unfold classList_contains, classList_remove.
  induction l as [| c l IH]; simpl.
  - reflexivity.
  - destruct (String.eqb token c); simpl; [discriminate |].
    intros H. now rewrite IH.
Qed.

Lemma contains_removed (token : String.string) (l : list String.string) :
  classList_contains token (classList_remove token l) = false.
Proof.
  unfold classList_contains, classList_remove.
  induction l as [| c l IH]; simpl.
  - reflexivity.
  - destruct (String.eqb token c) eqn:E; simpl.
    + exact IH.
    + now rewrite E, IH.
Qed.

Lemma contains_appended (token : String.string) (l : list String.string) :
  classList_contains token (l ++ [token]) = true.
Proof.
  unfold classList_contains. rewrite existsb_app. simpl.
  rewrite String.eqb_refl. apply orb_true_iff. right. reflexivity.
Qed.

Lemma toggle_click_eq (d : MenuDom) :
  toggle_click d =
  if classList_contains "open"%string (classList d)
  then {| classList := classList_remove "open"%string (classList d);
          aria_expanded := Some "false"%string;
          aria_hidden := Some "true"%string |}
  else {| classList := classList d ++ ["open"%string];
          aria_expanded := Some "true"%string;
          aria_hidden := Some "false"%string |}.
Proof.
  unfold toggle_click, classList_toggle.
  now destruct (classList_contains "open"%string (classList d)).
Qed.

Lemma menu_handle_open (e : MenuEvent) (d : MenuDom) :
  classList_contains "open"%string (classList (menu_handle e d)) =
  match e with
  | ToggleClick => negb (classList_contains "open"%string (classList d))
  | LinkClick => false
  end.
Proof.
  destruct e; simpl.
  - rewrite toggle_click_eq.
    destruct (classList_contains "open"%string (classList d)) eqn:E; simpl.
    + apply contains_removed.
    + apply contains_appended.
  - apply contains_removed.
Qed.

Lemma menu_handle_consistent (e : MenuEvent) (d : MenuDom) :
  menu_consistent (menu_handle e d).
Proof.
  unfold menu_consistent. rewrite menu_handle_open. destruct e; simpl.
  - rewrite toggle_click_eq.
    destruct (classList_contains "open"%string (classList d)); simpl; now split.
  - now split.
Qed.

Lemma menu_handle_others (e : MenuEvent) (d : MenuDom) :
  classList_remove "open"%string (classList (menu_handle e d)) =
  classList_remove "open"%string (classList d).
Proof.
  destruct e; simpl.
  - rewrite toggle_click_eq.
    destruct (classList_contains "open"%string (classList d)); simpl.
    + apply remove_idempotent.
    + apply remove_appended.
  - apply remove_idempotent.
Qed.

Lemma clicks_registered (pg : Page) (es : list MenuEvent) (d : MenuDom) :
  menu_listeners pg = true -> clicks pg es d = menu_run es d.
Proof.
  intros Hpg. revert d. induction es as [| e es IH]; intros d; simpl.
  - reflexivity.
  - unfold click. rewrite Hpg. apply IH.
Qed.

Lemma clicks_unregistered (pg : Page) (es : list MenuEvent) (d : MenuDom) :
  menu_listeners pg = false -> clicks pg es d = d.
Proof.
  intros Hpg. revert d. induction es as [| e es IH]; intros d; simpl.
  - reflexivity.
  - unfold click. rewrite Hpg. apply IH.
Qed.

(** X14.  On a page where the script has registered the click listeners of
    the menu (the canvas and the menu, the toggle and the drawer are all
    found), after any click on the toggle or on a link of the drawer the
    attributes say what the class list says: [aria-expanded] is ["true"] when
    the menu has the class [open] and ["false"] when it has not, and
    [aria-hidden] is the opposite, whatever the attributes and classes were
    before.  On a page where one of the four is missing no listener is
    registered and the clicks change nothing. *)
Theorem menu_attributes_follow (pg : Page) (es : list MenuEvent) (d : MenuDom) :
  es <> [] ->
  let d' := clicks pg es d in
  let open := classList_contains "open"%string (classList d') in
  (menu_listeners pg = true ->
     aria_expanded d' = Some (if open then "true" else "false")%string /\
     aria_hidden d' = Some (if open then "false" else "true")%string) /\
  (menu_listeners pg = false -> d' = d) /\
  (menu_listeners pg = true <->
     canvas_found pg = true /\ menu_found pg = true /\
     toggle_found pg = true /\ drawer_found pg = true).
Proof.
  intros Hes.
  assert (Hgen : forall es' d0,
             menu_consistent d0 \/ es' <> [] -> menu_consistent (menu_run es' d0)).
  { induction es' as [| e es' IH]; intros d0 H; simpl.
    - destruct H as [H | H]; [exact H | congruence].
    - apply IH. left. apply menu_handle_consistent. }
  split; [| split].
  - intros Hpg. rewrite clicks_registered by exact Hpg.
    apply Hgen. now right.
  - intros Hpg. now apply clicks_unregistered.
  - unfold menu_listeners. rewrite !andb_true_iff. tauto.
Qed.

Lemma menu_attributes_follow_witness :
  [ToggleClick] <> [] /\
  aria_expanded (clicks whole_page [ToggleClick] shipped_menu) = Some "true"%string /\
  aria_hidden (clicks whole_page [ToggleClick] shipped_menu) = Some "false"%string.
Proof.
  assert (Hes : [ToggleClick] <> []) by discriminate.
  split; [exact Hes |].
  apply (menu_attributes_follow whole_page [ToggleClick] shipped_menu Hes).
  reflexivity.
Defined.

(** X15.  On a page where the script has registered the click listeners of
    the menu, whether the menu is open depends on the clicks alone: a click
    on the toggle flips it and a click on a link closes it.  So [n] clicks
    on the toggle change it exactly when [n] is odd, and after a click on a
    link the menu is closed whatever came before.  On a page where the
    listeners are not registered the clicks leave the menu as it was. *)
Theorem menu_open_state (pg : Page) (es : list MenuEvent) (d : MenuDom) (n : nat) :
  (menu_listeners pg = true ->
     classList_contains "open"%string (classList (clicks pg es d)) =
       open_after es (classList_contains "open"%string (classList d)) /\
     classList_contains "open"%string
       (classList (clicks pg (repeat ToggleClick n) d)) =
       xorb (Nat.odd n) (classList_contains "open"%string (classList d)) /\
     classList_contains "open"%string
       (classList (clicks pg (es ++ [LinkClick]) d)) = false) /\
  (menu_listeners pg = false -> clicks pg es d = d).
Proof.
  assert (Hgen : forall es' d0,
             classList_contains "open"%string (classList (menu_run es' d0)) =
             open_after es' (classList_contains "open"%string (classList d0))).
  { induction es' as [| e es' IH]; intros d0; simpl.
    - reflexivity.
    - rewrite IH, menu_handle_open. now destruct e. }
  assert (Hrun : forall es1 es2 d0,
             menu_run (es1 ++ es2) d0 = menu_run es2 (menu_run es1 d0)).
  { induction es1 as [| e es1 IH]; intros es2 d0; simpl.
    - reflexivity.
    - apply IH. }
  split; [| intros Hpg; now apply clicks_unregistered].
  intros Hpg. rewrite !clicks_registered by exact Hpg.
  split; [apply Hgen |]. split.
  - rewrite Hgen. generalize (classList_contains "open"%string (classList d)).
    induction n as [| n IH]; intros b.
    + simpl. now destruct b.
    + simpl repeat. simpl open_after. rewrite IH, Nat.odd_succ.
      rewrite <- Nat.negb_odd. now destruct (Nat.odd n), b.
  - rewrite Hrun. simpl. apply contains_removed.
Qed.

Lemma menu_open_state_witness :
  menu_listeners whole_page = true /\
  classList_contains "open"%string
    (classList (clicks whole_page [ToggleClick; ToggleClick; ToggleClick] shipped_menu))
  = true.
Proof.
  split; [reflexivity |].
  apply (menu_open_state whole_page [] shipped_menu 3). reflexivity.
Defined.

(** X16.  The clicks touch no class of the menu but [open]: the other
    classes stay, in their order, through any clicks.  And two clicks on the
    toggle of a closed menu give back the class list it had. *)
Theorem menu_other_classes (es : list MenuEvent) (d : MenuDom) :
  classList_remove "open"%string (classList (menu_run es d)) =
    classList_remove "open"%string (classList d) /\
  (forall c, c <> "open"%string ->
     (In c (classList (menu_run es d)) <-> In c (classList d))) /\
  (classList_contains "open"%string (classList d) = false ->
     classList (toggle_click (toggle_click d)) = classList d).
Proof.
  assert (Hgen : forall es' d0,
             classList_remove "open"%string (classList (menu_run es' d0)) =
             classList_remove "open"%string (classList d0)).
  { induction es' as [| e es' IH]; intros d0; simpl.
    - reflexivity.
    - now rewrite IH, menu_handle_others. }
  assert (Hin : forall c l, c <> "open"%string ->
            (In c (classList_remove "open"%string l) <-> In c l)).
  { intros c l Hc. unfold classList_remove. rewrite filter_In.
    split; [tauto |]. intros H. split; [exact H |].
    apply negb_true_iff. apply String.eqb_neq. congruence. }
  split; [apply Hgen |]. split.
  - intros c Hc. rewrite <- (Hin c (classList (menu_run es d)) Hc).
    rewrite Hgen. now apply Hin.
  - intros Hclosed.
    pose proof (menu_handle_open ToggleClick d) as Hopen.
    simpl in Hopen. rewrite Hclosed in Hopen. simpl in Hopen.
    rewrite (toggle_click_eq (toggle_click d)), Hopen. simpl.
    rewrite toggle_click_eq, Hclosed. simpl.
    rewrite remove_appended. now apply remove_absent.
Qed.

(** * The scheduler away from a scroll *)

(** X17.  Away from a scroll the animation runs at the full rate: every run
    of [animate] that comes 160 ms or more after the last scroll, whatever
    the frame counter, counts the frame, calls [update], paints [draw] of the
    updated state and requests the next run. *)
Theorem frames_at_full_rate (Math_random : nat -> R) (times : list Z) (st : State) :
  Forall (fun now => (160 <= now - lastScrollTime st)%Z) times ->
  Forall (fun r => performs_work (snd r) = true /\ rerequested (snd r) = true)
    (frames Math_random times st) /\
  forall i now, nth_error times i = Some now ->
    let s := run Math_random (map Frame (firstn i times)) st in
    nth_error (frames Math_random times st) i = Some (animate Math_random now s) /\
    animate Math_random now s =
      (update Math_random (count_frame s),
       [Paint (draw (update Math_random (count_frame s)));
        requestAnimationFrame]).
Proof.
  intros Hall. split.
  - revert st Hall. induction times as [| now later IH]; intros st Hall; simpl.
    + constructor.
    + inversion Hall as [| ? ? Hnow Hlater]; subst. constructor.
      * split; [| apply animate_rerequested]. rewrite animate_work.
        destruct (Z.ltb_spec (now - lastScrollTime st) 160); [lia | reflexivity].
      * apply IH. destruct (animate_state Math_random now st) as (_ & -> & _).
        exact Hlater.
  - intros i now Hi s. split; [now apply frames_nth |].
    now apply run_away_from_scroll.
Qed.

Lemma frames_at_full_rate_witness :
  Forall (fun now => (160 <= now - lastScrollTime (onScroll 1000 tiny))%Z)
    [1160; 1176; 1193]%Z /\
  Forall (fun r => performs_work (snd r) = true /\ rerequested (snd r) = true)
    (frames still [1160; 1176; 1193]%Z (onScroll 1000 tiny)).
Proof.
  assert (Hall : Forall
                   (fun now => (160 <= now - lastScrollTime (onScroll 1000 tiny))%Z)
                   [1160; 1176; 1193]%Z).
  { simpl. repeat constructor; lia. }
  split; [exact Hall |].
  apply (frames_at_full_rate still [1160; 1176; 1193]%Z (onScroll 1000 tiny) Hall).
Defined.
